(** * eventdispatcher: a shallow embedding of the dispatcher, the event and
    the registry, and the properties of the specification checked on it.

    Source files embedded here:
    - the dispatcher ([On], [Once], [Off], [OffAll], [HasListeners],
      [Dispatch], [GetDispatcher]) in its current form, the one whose
      once-wrapper takes the read lock again after [Off];
    - the event ([ParamsEvent] and its methods, [NewParamsEvent]);
    - the earlier form of the dispatcher that the source keeps beside the
      current one ([old_On], [old_Once], [old_Dispatch]), whose
      once-wrapper does not take the read lock again.

    Go values are modelled as follows.
    - A [map] is a [gmap]; the maps of this program are created with
      [make] by [NewDispatcher] and [NewParamsEvent], the registry map
      apart, which starts [nil] and is an [option].
    - A slice is its elements together with the cells of its backing
      array that lie beyond its length: [Off] shrinks a slice in place
      and [Dispatch] ranges over the array it captured, so those cells
      are read.
    - A func value is a code pointer (what [reflect.ValueOf(l).Pointer()]
      returns) and a behaviour.
    - Pointers to events and dispatchers are locations of a heap.
    - The read/write mutex is a reader count and a writer flag; a call
      that would block forever, there being one goroutine, is the outcome
      [Blocked], a runtime panic or fatal error the outcome [Fatal]. *)

From Stdlib Require Import ZArith String Ascii List Lia.
From stdpp Require Import base option list gmap strings fin_maps.

Set Default Proof Using "Type".
Open Scope string_scope.
Open Scope list_scope.

(* ===================================================================== *)
(** ** Outcomes and the state monad of the embedding                      *)
(* ===================================================================== *)

Inductive outcome (A : Type) : Type :=
| Ok (a : A)
| Blocked
| Fatal.
Arguments Ok {A} a.
Arguments Blocked {A}.
Arguments Fatal {A}.

Definition M (S A : Type) : Type := S -> outcome (A * S).

Definition ret {S A : Type} (a : A) : M S A := fun s => Ok (a, s).

Definition bind {S A B : Type} (m : M S A) (k : A -> M S B) : M S B :=
  fun s =>
    match m s with
    | Ok (a, s') => k a s'
    | Blocked => Blocked
    | Fatal => Fatal
    end.

Definition get {S : Type} : M S S := fun s => Ok (s, s).
Definition put {S : Type} (s : S) : M S unit := fun _ => Ok (tt, s).
Definition throw {S A : Type} : M S A := fun _ => Fatal.

Declare Scope go_scope.
Delimit Scope go_scope with go.
Notation "x <- m ;; k" := (bind m (fun x => k))
  (at level 100, m at next level, right associativity) : go_scope.
Notation "m ;;; k" := (bind m (fun _ => k))
  (at level 100, right associativity) : go_scope.
Open Scope go_scope.

(** [for _, x := range xs { f x }] over a list that the body cannot change. *)
Fixpoint for_each {S A : Type} (f : A -> M S unit) (xs : list A) : M S unit :=
  match xs with
  | [] => ret tt
  | x :: xs' => f x ;;; for_each f xs'
  end.

(* ===================================================================== *)
(** ** sync.RWMutex, seen by the one goroutine that runs the program      *)
(* ===================================================================== *)

Record sync_RWMutex : Type := mkRWMutex { readers : nat; writer : bool }.

Definition unlockedMutex : sync_RWMutex := mkRWMutex 0 false.

Definition mLock : M sync_RWMutex unit := fun mu =>
  if writer mu then Blocked
  else match readers mu with
       | O => Ok (tt, mkRWMutex 0 true)
       | S _ => Blocked
       end.

Definition mUnlock : M sync_RWMutex unit := fun mu =>
  if writer mu then Ok (tt, mkRWMutex (readers mu) false) else Fatal.

Definition mRLock : M sync_RWMutex unit := fun mu =>
  if writer mu then Blocked else Ok (tt, mkRWMutex (S (readers mu)) false).

Definition mRUnlock : M sync_RWMutex unit := fun mu =>
  match readers mu with
  | O => Fatal
  | S r => Ok (tt, mkRWMutex r (writer mu))
  end.

(* ===================================================================== *)
(** ** The event                                                          *)
(* ===================================================================== *)

Definition loc : Type := positive.

(** Values of type [interface{}]. *)
Inductive iface : Type :=
| INil
| IString (s : string)
| IInt (z : Z)
| IOther (dyn_type : string) (repr : Z).

Record ParamsEvent : Type := mkParamsEvent {
  name : string;
  isPropagationStopped : bool;
  params : gmap string iface
}.

(** The memory outside the dispatcher: the events, reached through
    pointers, and the variables that listener closures capture. *)
Record Mem : Type := mkMem {
  events : gmap loc ParamsEvent;
  vars : gmap string Z
}.

Definition emptyMem : Mem := mkMem ∅ ∅.

(** Dereferencing the receiver; a nil or dangling pointer panics. *)
Definition deref (event : loc) : M Mem ParamsEvent := fun m =>
  match events m !! event with
  | Some ev => Ok (ev, m)
  | None => Fatal
  end.

Definition store (event : loc) (ev : ParamsEvent) : M Mem unit := fun m =>
  Ok (tt, mkMem (<[event := ev]> (events m)) (vars m)).

Definition Name (event : loc) : M Mem string :=
  ev <- deref event ;; ret (name ev).

Definition IsPropagationStopped (event : loc) : M Mem bool :=
  ev <- deref event ;; ret (isPropagationStopped ev).

Definition StopPropagation (event : loc) : M Mem unit :=
  ev <- deref event ;;
  store event (mkParamsEvent (name ev) true (params ev)).

Definition SetParam (event : loc) (k : string) (v : iface) : M Mem loc :=
  ev <- deref event ;;
  store event
    (mkParamsEvent (name ev) (isPropagationStopped ev) (<[k := v]> (params ev))) ;;;
  ret event.

Definition HasParam (event : loc) (k : string) : M Mem bool :=
  ev <- deref event ;;
  ret (match params ev !! k with Some _ => true | None => false end).

Definition RemoveParam (event : loc) (k : string) : M Mem loc :=
  has <- HasParam event k ;;
  (if has
   then ev <- deref event ;;
        store event
          (mkParamsEvent (name ev) (isPropagationStopped ev) (delete k (params ev)))
   else ret tt) ;;;
  ret event.

Definition GetParam (event : loc) (k : string) : M Mem (iface * bool) :=
  ev <- deref event ;;
  match params ev !! k with
  | None => ret (IString "", false)
  | Some v => ret (v, true)
  end.

(** [&e] for a new composite literal: an address no live event has. *)
Definition NewParamsEvent (n : string) : M Mem loc := fun m =>
  let p := fresh (dom (events m)) in
  Ok (p, mkMem (<[p := mkParamsEvent n false ∅]> (events m)) (vars m)).

(* ===================================================================== *)
(** ** Names                                                              *)
(* ===================================================================== *)

(** [strings.Split(s, sep)] for a separator of one byte: the pieces between
    the occurrences of [sep], empty pieces included; never the empty list. *)
Fixpoint strings_Split (s : string) (sep : ascii) : list string :=
  match s with
  | EmptyString => [EmptyString]
  | String c s' =>
      if Ascii.eqb c sep then EmptyString :: strings_Split s' sep
      else match strings_Split s' sep with
           | piece :: pieces => String c piece :: pieces
           | [] => [String c EmptyString]
           end
  end.

Definition getNames (n : string) : list string :=
  let names := strings_Split n " "%char in
  fold_left
    (fun results name => if String.eqb name "" then results else results ++ [name])
    names [].

(* ===================================================================== *)
(** ** Listeners                                                          *)
(* ===================================================================== *)

(** What [reflect.ValueOf(l).Pointer()] returns for a func value: the
    address of its code. Every closure made from one function literal has
    the same one; the literal inside [executeRemove] has its own. *)
Inductive codeptr : Type :=
| UserCode (c : nat)
| ExecuteRemoveCode.

Global Instance codeptr_eq_dec : EqDecision codeptr.
Proof. solve_decision. Defined.

(** A listener is either a function of the caller, which acts on the event
    it is given and on the variables it captured, or the closure [nl] that
    [executeRemove d n l] builds. The dispatcher [d] that [nl] captures is
    the dispatcher [nl] is registered with: [executeRemove] is only called
    by [d.Once], which registers the result with [d] and hands it to nobody
    else.

    The functions of the caller that this type has are those that return
    and that leave the dispatcher alone. A nil func value, a function that
    panics, and a function that calls a method of the dispatcher it is
    registered with are not values of it: what is proved of [Dispatch]
    below is proved for listeners that return, and the once-wrapper is the
    one listener here that calls back into the dispatcher. *)
Inductive Listener : Type :=
| Func (c : nat) (body : loc -> Mem -> Mem)
| OnceFunc (n : string) (l : Listener).

Definition Pointer (l : Listener) : codeptr :=
  match l with
  | Func c _ => UserCode c
  | OnceFunc _ _ => ExecuteRemoveCode
  end.

(** A slice of listeners whose window starts at the first cell of its
    backing array: [elems] are the cells below its length, [spare] the
    cells from its length on that have been written. *)
Record listenersCollection : Type := mkSlice {
  elems : list Listener;
  spare : list Listener
}.

Definition nilSlice : listenersCollection := mkSlice [] [].

Definition backing (s : listenersCollection) : list Listener :=
  elems s ++ spare s.

(** The slice of length [n] on the array [a]. *)
Definition sliceOf (a : list Listener) (n : nat) : listenersCollection :=
  mkSlice (take n a) (drop n a).

(** [append(s, l)]: the cell after the last element is written, in place
    when the capacity allows and in a larger copy otherwise; no other slice
    on the old array is live where this program appends, so the two cases
    are not told apart. *)
Definition append1 (s : listenersCollection) (l : Listener) : listenersCollection :=
  mkSlice (elems s ++ [l]) (tail (spare s)).

(** The array after [append(listeners[:i], listeners[i+1:]...)], where
    [listeners] has length [len0] on the array [a]: the cells [i+1 .. len0-1]
    move one place down, in place; the cell [len0-1] and those above keep
    their content. *)
Definition shiftDown (i len0 : nat) (a : list Listener) : list Listener :=
  take i a ++ drop (S i) (take len0 a) ++ drop (len0 - 1) a.

(* ===================================================================== *)
(** ** The dispatcher                                                     *)
(* ===================================================================== *)

Record EventDispatcher : Type := mkDispatcher {
  RWMutex : sync_RWMutex;
  listeners : gmap string listenersCollection
}.

(** [d.listeners[n]] read: the zero value, a nil slice, for a missing key. *)
Definition listenersAt (d : EventDispatcher) (n : string) : listenersCollection :=
  default nilSlice (listeners d !! n).

(** The value [EventDispatcher{listeners: make(...)}] that [NewDispatcher]
    allocates: a free mutex and an empty map. *)
Definition newEventDispatcher : EventDispatcher := mkDispatcher unlockedMutex ∅.

(** No goroutine holds the dispatcher's mutex: the state between two calls
    of the dispatcher's methods. *)
Definition unlocked (d : EventDispatcher) : Prop := RWMutex d = unlockedMutex.

(** The mutex methods on the dispatcher that embeds the mutex. *)
Definition onMutex {A : Type} (f : M sync_RWMutex A) : M EventDispatcher A :=
  fun d =>
    match f (RWMutex d) with
    | Ok (a, mu) => Ok (a, mkDispatcher mu (listeners d))
    | Blocked => Blocked
    | Fatal => Fatal
    end.

Definition Lock : M EventDispatcher unit := onMutex mLock.
Definition Unlock : M EventDispatcher unit := onMutex mUnlock.
Definition RLock : M EventDispatcher unit := onMutex mRLock.
Definition RUnlock : M EventDispatcher unit := onMutex mRUnlock.

Definition setListeners (n : string) (s : listenersCollection) : M EventDispatcher unit :=
  fun d => Ok (tt, mkDispatcher (RWMutex d) (<[n := s]> (listeners d))).

Definition on (n : string) (l : Listener) : M EventDispatcher unit :=
  Lock ;;;
  d <- get ;;
  setListeners n (append1 (listenersAt d n) l) ;;;
  Unlock.

Definition On (n : string) (l : Listener) : M EventDispatcher unit :=
  let names := getNames n in
  for_each (fun name => on name l) names.

Definition executeRemove (n : string) (l : Listener) : Listener := OnceFunc n l.

Definition Once (n : string) (l : Listener) : M EventDispatcher unit :=
  let names := getNames n in
  for_each (fun name => let nl := executeRemove name l in on n nl) names.

(** The loop of [Off]. [listeners] was read before the loop and has length
    [len0]; the map entry that the loop assigns is a slice on the same
    array, so the array is read through the entry. [k] counts the
    iterations left, [i] is the index. *)
Fixpoint Off_loop (p : codeptr) (n : string) (len0 k i : nat) : M EventDispatcher unit :=
  match k with
  | O => ret tt
  | S k' =>
      d <- get ;;
      let a := backing (listenersAt d n) in
      match a !! i with
      | None => throw
      | Some l =>
          (if decide (Pointer l = p)
           then setListeners n (sliceOf (shiftDown i len0 a) (len0 - 1))
           else ret tt) ;;;
          Off_loop p n len0 k' (S i)
      end
  end.

Definition Off (n : string) (l : Listener) : M EventDispatcher unit :=
  Lock ;;;
  (let p := Pointer l in
   d <- get ;;
   let len0 := length (elems (listenersAt d n)) in
   Off_loop p n len0 len0 0) ;;;
  Unlock.

Definition OffAll (n : string) : M EventDispatcher unit :=
  Lock ;;;
  d <- get ;;
  (match listeners d !! n with
   | Some _ => put (mkDispatcher (RWMutex d) (delete n (listeners d)))
   | None => ret tt
   end) ;;;
  Unlock.

Definition HasListeners (n : string) : M EventDispatcher bool :=
  d <- get ;;
  match listeners d !! n with
  | None => ret false
  | Some ls => ret (negb (Nat.eqb (length (elems ls)) 0))
  end.

(** The dispatcher together with the memory its listeners act on. *)
Record World : Type := mkWorld {
  disp : EventDispatcher;
  mem : Mem;
  calls : list (Listener * loc)
}.

Definition onDisp {A : Type} (f : M EventDispatcher A) : M World A :=
  fun w =>
    match f (disp w) with
    | Ok (a, d) => Ok (a, mkWorld d (mem w) (calls w))
    | Blocked => Blocked
    | Fatal => Fatal
    end.

Definition onMem {A : Type} (f : M Mem A) : M World A :=
  fun w =>
    match f (mem w) with
    | Ok (a, m) => Ok (a, mkWorld (disp w) m (calls w))
    | Blocked => Blocked
    | Fatal => Fatal
    end.

(** [l(e)]. *)
Fixpoint call (l : Listener) (e : loc) : M World unit :=
  match l with
  | Func _ body => fun w => Ok (tt, mkWorld (disp w) (body e (mem w)) (calls w))
  | OnceFunc n l' =>
      call l' e ;;;
      onDisp RUnlock ;;;
      onDisp (Off n (OnceFunc n l')) ;;;
      onDisp RLock
  end.

(** [calls] is not a variable of the program: it records, for the
    statements below, each call [l(e)] that the loop of [dispatch] makes. *)
Definition record (l : Listener) (e : loc) : M World unit :=
  fun w => Ok (tt, mkWorld (disp w) (mem w) (calls w ++ [(l, e)])).

(** The loop of [dispatch] over the slice read before the loop, of length
    [len0] and named [nm] in the map: its array is the one the map entry
    still has, [Off] being the only writer while the loop runs. *)
Fixpoint dispatch_loop (nm : string) (e : loc) (k i : nat) : M World unit :=
  match k with
  | O => ret tt
  | S k' =>
      w <- get ;;
      match backing (listenersAt (disp w) nm) !! i with
      | None => throw
      | Some l => record l e ;;; call l e ;;; dispatch_loop nm e k' (S i)
      end
  end.

Definition dispatch (e : loc) : M World loc :=
  nm <- onMem (Name e) ;;
  w <- get ;;
  let len0 := length (elems (listenersAt (disp w) nm)) in
  dispatch_loop nm e len0 0 ;;;
  ret e.

Definition Dispatch (e : loc) : M World loc :=
  onDisp RLock ;;;
  fun w =>
    match dispatch e w with
    | Ok (r, w') => (onDisp RUnlock ;;; ret r) w'
    | Blocked => Blocked
    | Fatal => Fatal
    end.

(* ===================================================================== *)
(** ** The registry                                                       *)
(* ===================================================================== *)

Definition DefaultDispatcherKey : string := "event_dispatcher".

(** The package variable [dispatchers], [nil] until [GetDispatcher] makes
    it, and the dispatchers allocated so far. *)
Record Registry : Type := mkRegistry {
  dispatchers : option (gmap string loc);
  heap : gmap loc EventDispatcher
}.

Definition initRegistry : Registry := mkRegistry None ∅.

Definition NewDispatcher : M Registry loc := fun r =>
  let p := fresh (dom (heap r)) in
  Ok (p, mkRegistry (dispatchers r) (<[p := newEventDispatcher]> (heap r))).

Definition getDispatcher (k : string) : M Registry loc :=
  r <- get ;;
  match dispatchers r with
  | None =>
      (* reading a nil map finds nothing; assigning to it panics *)
      _ <- NewDispatcher ;; throw
  | Some ds =>
      match ds !! k with
      | Some d => ret d
      | None =>
          p <- NewDispatcher ;;
          r' <- get ;;
          put (mkRegistry (Some (<[k := p]> ds)) (heap r')) ;;;
          ret p
      end
  end.

Definition GetDispatcher (k : iface) : M Registry loc :=
  r <- get ;;
  (match dispatchers r with
   | None => put (mkRegistry (Some ∅) (heap r))
   | Some _ => ret tt
   end) ;;;
  match k with
  | INil => getDispatcher DefaultDispatcherKey
  | IString key => getDispatcher key
  | _ => throw
  end.

(** What a program can do to the registry and to the dispatchers it
    points to: look a dispatcher up, allocate one of its own, and call the
    methods of a dispatcher, which change that dispatcher only. *)
Inductive reg_step : Registry -> Registry -> Prop :=
| step_get (k : iface) (r r' : Registry) (p : loc) :
    GetDispatcher k r = Ok (p, r') -> reg_step r r'
| step_new (r r' : Registry) (p : loc) :
    NewDispatcher r = Ok (p, r') -> reg_step r r'
| step_method (r : Registry) (p : loc) (d d' : EventDispatcher) :
    heap r !! p = Some d ->
    reg_step r (mkRegistry (dispatchers r) (<[p := d']> (heap r))).

Inductive reg_steps : Registry -> Registry -> Prop :=
| steps_refl (r : Registry) : reg_steps r r
| steps_snoc (r r' r'' : Registry) :
    reg_steps r r' -> reg_step r' r'' -> reg_steps r r''.

Definition reachable (r : Registry) : Prop := reg_steps initRegistry r.

(* ===================================================================== *)
(** ** Definitions used by the statements                                 *)
(* ===================================================================== *)

(** An event name: a string that [On] takes as the one name it is. *)
Definition isName (n : string) : Prop := getNames n = [n].

(** A listener of the caller, as opposed to a once-wrapper. *)
Definition isFunc (l : Listener) : bool :=
  match l with
  | Func _ _ => true
  | OnceFunc _ _ => false
  end.

(** The effect on the memory of calling [l] with [e]. *)
Fixpoint effect (l : Listener) (e : loc) (m : Mem) : Mem :=
  match l with
  | Func _ body => body e m
  | OnceFunc _ l' => effect l' e m
  end.

Definition effects (ls : list Listener) (e : loc) (m : Mem) : Mem :=
  fold_left (fun m l => effect l e m) ls m.

(** A listener without what its closure captured: its code only. *)
Fixpoint code (l : Listener) : Listener :=
  match l with
  | Func c _ => Func c (fun _ m => m)
  | OnceFunc n l' => OnceFunc n (code l')
  end.

Definition codeSlice (s : listenersCollection) : listenersCollection :=
  mkSlice (code <$> elems s) (code <$> spare s).

Definition codeDisp (d : EventDispatcher) : EventDispatcher :=
  mkDispatcher (RWMutex d) (codeSlice <$> listeners d).

Definition codeCalls (cs : list (Listener * loc)) : list (Listener * loc) :=
  (fun c => (code (fst c), snd c)) <$> cs.

(** The state a method leaves when it returns, if it returns. *)
Definition stateAfter {S A : Type} (m : M S A) (s : S) : option S :=
  match m s with
  | Ok (_, s') => Some s'
  | _ => None
  end.

(** Go's [int], 64 bits wide as on the platforms the package is built
    for: the values an [int] has, and the value that the result of an
    addition wraps to. *)
Definition inInt (z : Z) : Prop := (- 2 ^ 63 <= z < 2 ^ 63)%Z.

Definition wrapInt (z : Z) : Z := ((z + 2 ^ 63) mod 2 ^ 64 - 2 ^ 63)%Z.

(** Listeners of the kind the tests register: [c++] on a captured [int]
    variable, and a call of [StopPropagation] on the event. *)
Definition increment (x : string) : loc -> Mem -> Mem := fun _ m =>
  mkMem (events m) (<[x := wrapInt (default 0 (vars m !! x) + 1)%Z]> (vars m)).

Definition stopPropagation : loc -> Mem -> Mem := fun e m =>
  match StopPropagation e m with
  | Ok (_, m') => m'
  | _ => m
  end.

Definition counter (c : nat) (x : string) : Listener := Func c (increment x).
Definition stopper (c : nat) : Listener := Func c stopPropagation.

(** The names of a whitespace-separated list, whitespace being what Go's
    [unicode.IsSpace] accepts among the ASCII bytes: the reading of
    "whitespace-separated" that the statement about [On] is compared with. *)
Definition isWhitespace (c : ascii) : bool :=
  let k := nat_of_ascii c in
  (Nat.eqb k 32 || (Nat.leb 9 k && Nat.leb k 13))%bool.

Fixpoint whitespaceFields_from (cur : string) (s : string) : list string :=
  match s with
  | EmptyString => if String.eqb cur "" then [] else [cur]
  | String c s' =>
      if isWhitespace c
      then (if String.eqb cur "" then [] else [cur]) ++ whitespaceFields_from "" s'
      else whitespaceFields_from (String.append cur (String c "")) s'
  end.

Definition whitespaceFields (s : string) : list string :=
  whitespaceFields_from "" s.

(** The methods of an event, to state what holds after any calls of them. *)
Inductive method : Type :=
| CallName
| CallIsPropagationStopped
| CallStopPropagation
| CallSetParam (k : string) (v : iface)
| CallRemoveParam (k : string)
| CallHasParam (k : string)
| CallGetParam (k : string).

Definition callMethod (e : loc) (c : method) : M Mem unit :=
  match c with
  | CallName => _ <- Name e ;; ret tt
  | CallIsPropagationStopped => _ <- IsPropagationStopped e ;; ret tt
  | CallStopPropagation => StopPropagation e
  | CallSetParam k v => _ <- SetParam e k v ;; ret tt
  | CallRemoveParam k => _ <- RemoveParam e k ;; ret tt
  | CallHasParam k => _ <- HasParam e k ;; ret tt
  | CallGetParam k => _ <- GetParam e k ;; ret tt
  end.

(** A piece that [getNames] keeps. *)
Definition nonEmpty (s : string) : bool := negb (String.eqb s "").

(** The byte [c] occurs in [s]. *)
Fixpoint occurs (c : ascii) (s : string) : bool :=
  match s with
  | EmptyString => false
  | String c' s' => (Ascii.eqb c' c || occurs c s')%bool
  end.

(** The listeners map after [on n l], and after [Off n l]: what the two
    methods, which also take and release the lock, do to the map. *)
Definition registered (l : Listener) (ls : gmap string listenersCollection)
    (n : string) : gmap string listenersCollection :=
  <[n := append1 (default nilSlice (ls !! n)) l]> ls.

Fixpoint scan (p : codeptr) (len0 k i : nat) (a : list Listener)
  : list Listener * bool :=
  match k with
  | O => (a, false)
  | S k' =>
      match a !! i with
      | None => (a, false)
      | Some l =>
          if decide (Pointer l = p)
          then (fst (scan p len0 k' (S i) (shiftDown i len0 a)), true)
          else scan p len0 k' (S i) a
      end
  end.

Definition removed (n : string) (l : Listener)
    (ls : gmap string listenersCollection) : gmap string listenersCollection :=
  let s := default nilSlice (ls !! n) in
  let len0 := length (elems s) in
  let r := scan (Pointer l) len0 len0 0 (backing s) in
  if snd r then <[n := sliceOf (fst r) (len0 - 1)]> ls else ls.

(** The mutex while [Dispatch] runs its listeners: one reader. *)
Definition readingMutex : sync_RWMutex := mkRWMutex 1 false.

(** The listeners map after a call of [l]: a once-wrapper calls [Off]. *)
Fixpoint afterCall (l : Listener) (ls : gmap string listenersCollection)
  : gmap string listenersCollection :=
  match l with
  | Func _ _ => ls
  | OnceFunc n l' => removed n (OnceFunc n l') (afterCall l' ls)
  end.

(** The listeners that the loop of [dispatch] calls, in the order of the
    calls, and the listeners map it leaves. *)
Fixpoint schedule (nm : string) (k i : nat) (ls : gmap string listenersCollection)
  : list Listener * gmap string listenersCollection :=
  match k with
  | O => ([], ls)
  | S k' =>
      match backing (default nilSlice (ls !! nm)) !! i with
      | None => ([], ls)
      | Some l =>
          let r := schedule nm k' (S i) (afterCall l ls) in
          (l :: fst r, snd r)
      end
  end.

Definition called (ls : list Listener) (e : loc) : list (Listener * loc) :=
  map (fun l => (l, e)) ls.

(** The string "a<TAB>b". *)
Definition a_tab_b : string := String "a" (String "009" (String "b" "")).

(** The registry after [GetDispatcher] with the key [key], and the pointer
    it returns. *)
Definition lookedUp (key : string) (r : Registry) : loc * Registry :=
  let ds := default ∅ (dispatchers r) in
  match ds !! key with
  | Some p => (p, mkRegistry (Some ds) (heap r))
  | None =>
      let p := fresh (dom (heap r)) in
      (p, mkRegistry (Some (<[key := p]> ds)) (<[p := newEventDispatcher]> (heap r)))
  end.

(** Every registered pointer points to a dispatcher, and no two keys have
    the same pointer. *)
Definition registry_ok (r : Registry) : Prop :=
  forall ds, dispatchers r = Some ds ->
    (forall k p, ds !! k = Some p -> is_Some (heap r !! p)) /\
    (forall k1 k2 p, ds !! k1 = Some p -> ds !! k2 = Some p -> k1 = k2).

(** The values of the package's tests: the event name, an event of that
    name at the first address, a memory that holds it and a counter [c]
    at zero, and a dispatcher with two listeners under the name. *)
Definition TestEventName : string := "test_event".

Definition testEvent : ParamsEvent := mkParamsEvent TestEventName false ∅.

Definition testMem : Mem := mkMem {[ 1%positive := testEvent ]} {[ "c" := 0%Z ]}.

Definition testDispatcher : EventDispatcher :=
  mkDispatcher unlockedMutex
    {[ TestEventName := mkSlice [stopper 1; counter 2 "c"] [] ]}.

(** The same dispatcher and memory, but the first listener leaves the
    event alone and the event is stopped from the start. *)
Definition testDispatcher' : EventDispatcher :=
  mkDispatcher unlockedMutex
    {[ TestEventName := mkSlice [Func 1 (fun _ m => m); counter 2 "c"] [] ]}.

Definition testMem' : Mem :=
  mkMem {[ 1%positive := mkParamsEvent TestEventName true ∅ ]} {[ "c" := 0%Z ]}.

(* ===================================================================== *)
(** ** The earlier dispatcher                                             *)
(* ===================================================================== *)

(** The source keeps an earlier form of the dispatcher beside the
    current one. Its [On] takes the string as one name; its once-wrapper
    releases the read lock and calls [Off], and does not take the read lock
    again; [Off], [OffAll] and [HasListeners] are the same. Below, a
    listener [OnceFunc n l] called by [old_call] is the closure of the
    earlier [executeRemove]. *)
Definition old_On (n : string) (l : Listener) : M EventDispatcher unit :=
  Lock ;;;
  d <- get ;;
  setListeners n (append1 (listenersAt d n) l) ;;;
  Unlock.

Definition old_Once (n : string) (l : Listener) : M EventDispatcher unit :=
  let nl := executeRemove n l in
  old_On n nl.

Fixpoint old_call (l : Listener) (e : loc) : M World unit :=
  match l with
  | Func _ body => fun w => Ok (tt, mkWorld (disp w) (body e (mem w)) (calls w))
  | OnceFunc n l' =>
      old_call l' e ;;;
      onDisp RUnlock ;;;
      onDisp (Off n (OnceFunc n l'))
  end.

Fixpoint doDispatch_loop (nm : string) (e : loc) (k i : nat) : M World unit :=
  match k with
  | O => ret tt
  | S k' =>
      w <- get ;;
      match backing (listenersAt (disp w) nm) !! i with
      | None => throw
      | Some l => record l e ;;; old_call l e ;;; doDispatch_loop nm e k' (S i)
      end
  end.

Definition doDispatch (e : loc) : M World loc :=
  nm <- onMem (Name e) ;;
  w <- get ;;
  let len0 := length (elems (listenersAt (disp w) nm)) in
  doDispatch_loop nm e len0 0 ;;;
  ret e.

Definition old_Dispatch (e : loc) : M World loc :=
  onDisp RLock ;;;
  fun w =>
    match doDispatch e w with
    | Ok (r, w') => (onDisp RUnlock ;;; ret r) w'
    | Blocked => Blocked
    | Fatal => Fatal
    end.

(** What a call or a loop of the earlier dispatcher comes to once the read
    lock has been released: a fatal error, or a return with the lock free. *)
Definition fatalOrUnlocked {A : Type} (o : outcome (A * World)) : Prop :=
  match o with
  | Fatal => True
  | Ok (_, w') => unlocked (disp w')
  | Blocked => False
  end.

(** A dispatcher with five counting listeners under the name, as the
    test of [Dispatch] builds it, and one with four listeners of which the
    first and the third are closures of one function. *)
Definition countingDispatcher : EventDispatcher :=
  mkDispatcher unlockedMutex
    {[ TestEventName := mkSlice (repeat (counter 1 "c") 5) [] ]}.

Definition fourListeners : EventDispatcher :=
  mkDispatcher unlockedMutex
    {[ TestEventName :=
         mkSlice [counter 1 "a"; counter 2 "b"; counter 1 "c"; counter 3 "d"] [] ]}.

(** A dispatcher whose first listener under the name is a once-wrapper. *)
Definition onceDispatcher : EventDispatcher :=
  mkDispatcher unlockedMutex
    {[ TestEventName :=
         mkSlice [OnceFunc TestEventName (counter 1 "c"); counter 2 "c"] [] ]}.

(* ===================================================================== *)
(** * Properties                                                          *)
(* ===================================================================== *)

Ltac unfold_monad :=
  unfold bind, ret, get, put, throw in *.

(* --------------------------------------------------------------------- *)
(** ** The event                                                          *)
(* --------------------------------------------------------------------- *)

Section EventFacts.
Variables (m : Mem) (e : loc) (ev : ParamsEvent).
Hypothesis Hev : events m !! e = Some ev.

Lemma deref_allocated : deref e m = Ok (ev, m).
Proof using Hev. unfold deref. now rewrite Hev. Qed.

Lemma deref_stored (ev' : ParamsEvent) (m0 : Mem) :
  deref e (mkMem (<[e := ev']> (events m0)) (vars m0))
  = Ok (ev', mkMem (<[e := ev']> (events m0)) (vars m0)).
Proof. unfold deref. simpl. now rewrite lookup_insert_eq. Qed.

Lemma SetParam_allocated (k : string) (v : iface) :
  SetParam e k v m
  = Ok (e, mkMem (<[e := mkParamsEvent (name ev) (isPropagationStopped ev)
                                       (<[k := v]> (params ev))]> (events m))
                 (vars m)).
Proof using Hev. unfold SetParam, bind. now rewrite deref_allocated. Qed.

Lemma HasParam_allocated (k : string) :
  HasParam e k m
  = Ok (match params ev !! k with Some _ => true | None => false end, m).
Proof using Hev. unfold HasParam, bind. now rewrite deref_allocated. Qed.

Lemma GetParam_allocated (k : string) :
  GetParam e k m
  = Ok (match params ev !! k with
        | Some v => (v, true)
        | None => (IString "", false)
        end, m).
Proof using Hev.
  unfold GetParam, bind. rewrite deref_allocated.
  now destruct (params ev !! k).
Qed.

Lemma RemoveParam_allocated (k : string) :
  RemoveParam e k m
  = Ok (e, match params ev !! k with
           | Some _ =>
               mkMem (<[e := mkParamsEvent (name ev) (isPropagationStopped ev)
                                           (delete k (params ev))]> (events m))
                     (vars m)
           | None => m
           end).
Proof using Hev.
  unfold RemoveParam, bind at 1. rewrite HasParam_allocated.
  destruct (params ev !! k); unfold bind, ret; [|reflexivity].
  now rewrite deref_allocated.
Qed.

Lemma StopPropagation_allocated :
  StopPropagation e m
  = Ok (tt, mkMem (<[e := mkParamsEvent (name ev) true (params ev)]> (events m))
                  (vars m)).
Proof using Hev. unfold StopPropagation, bind. now rewrite deref_allocated. Qed.

Lemma IsPropagationStopped_allocated :
  IsPropagationStopped e m = Ok (isPropagationStopped ev, m).
Proof using Hev. unfold IsPropagationStopped, bind. now rewrite deref_allocated. Qed.

Lemma Name_allocated : Name e m = Ok (name ev, m).
Proof using Hev. unfold Name, bind. now rewrite deref_allocated. Qed.
End EventFacts.

(** No method of the event takes a stop of the propagation back. *)
Lemma callMethod_keeps_stopped (e : loc) (c : method) (m : Mem) (ev : ParamsEvent) :
  events m !! e = Some ev -> isPropagationStopped ev = true ->
  exists m' ev', callMethod e c m = Ok (tt, m') /\
                 events m' !! e = Some ev' /\ isPropagationStopped ev' = true.
Proof.
  intros Hev Hs. destruct c; simpl; unfold bind, ret.
  - rewrite (Name_allocated _ _ _ Hev). eauto.
  - rewrite (IsPropagationStopped_allocated _ _ _ Hev). eauto.
  - rewrite (StopPropagation_allocated _ _ _ Hev).
    eexists _, _. split; [reflexivity|]. simpl. now rewrite lookup_insert_eq.
  - rewrite (SetParam_allocated _ _ _ Hev).
    eexists _, _. split; [reflexivity|]. simpl. now rewrite lookup_insert_eq.
  - rewrite (RemoveParam_allocated _ _ _ Hev).
    destruct (params ev !! k).
    + eexists _, _. split; [reflexivity|]. simpl. now rewrite lookup_insert_eq.
    + eauto.
  - rewrite (HasParam_allocated _ _ _ Hev). eauto.
  - rewrite (GetParam_allocated _ _ _ Hev). eauto.
Qed.

Lemma callMethods_keep_stopped (e : loc) (cs : list method) :
  forall (m : Mem) (ev : ParamsEvent),
    events m !! e = Some ev -> isPropagationStopped ev = true ->
    exists m', for_each (callMethod e) cs m = Ok (tt, m') /\
               IsPropagationStopped e m' = Ok (true, m').
Proof.
  induction cs as [|c cs IH]; intros m ev Hev Hs; simpl.
  - exists m. split; [reflexivity|].
    rewrite (IsPropagationStopped_allocated _ _ _ Hev). now rewrite Hs.
  - destruct (callMethod_keeps_stopped e c m ev Hev Hs) as (m1 & ev1 & Hc & Hev1 & Hs1).
    unfold bind. rewrite Hc. eauto.
Qed.

(** C9. On an event [e] that exists: [SetParam k v] then [GetParam k]
    gives [(v, true)]; [GetParam] on a key that is not set gives the empty
    string and [false]; after [RemoveParam k], [HasParam k] is [false], and
    [RemoveParam] of a key that is not set changes nothing; [SetParam] and
    [RemoveParam] return the pointer [e] they were called on. A new event
    is not stopped; [StopPropagation] makes [IsPropagationStopped] true,
    and it stays true whatever methods of the event are called next. *)
Theorem ParamsEvent_roundtrip (m : Mem) (e : loc) (ev : ParamsEvent)
    (k : string) (v : iface) (n : string) (later : list method) :
  events m !! e = Some ev ->
  (exists m1, SetParam e k v m = Ok (e, m1) /\
              GetParam e k m1 = Ok ((v, true), m1)) /\
  (params ev !! k = None -> GetParam e k m = Ok ((IString "", false), m)) /\
  (exists m2, RemoveParam e k m = Ok (e, m2) /\
              HasParam e k m2 = Ok (false, m2) /\
              (params ev !! k = None -> m2 = m)) /\
  (exists p m0, NewParamsEvent n m = Ok (p, m0) /\
                Name p m0 = Ok (n, m0) /\
                IsPropagationStopped p m0 = Ok (false, m0)) /\
  (exists m3 m4, StopPropagation e m = Ok (tt, m3) /\
                 IsPropagationStopped e m3 = Ok (true, m3) /\
                 for_each (callMethod e) later m3 = Ok (tt, m4) /\
                 IsPropagationStopped e m4 = Ok (true, m4)).
Proof.
  intros Hev. repeat split.
  - eexists. split; [apply (SetParam_allocated _ _ _ Hev)|].
    erewrite GetParam_allocated by (simpl; apply lookup_insert_eq).
    simpl. now rewrite lookup_insert_eq.
  - intros Hk. rewrite (GetParam_allocated _ _ _ Hev). now rewrite Hk.
  - eexists. split; [apply (RemoveParam_allocated _ _ _ Hev)|].
    destruct (params ev !! k) eqn:Hk.
    + split; [|discriminate].
      erewrite HasParam_allocated by (simpl; apply lookup_insert_eq).
      simpl. now rewrite lookup_delete_eq.
    + split; [|reflexivity].
      rewrite (HasParam_allocated _ _ _ Hev). now rewrite Hk.
  - eexists _, _. split; [reflexivity|].
    split.
    + erewrite Name_allocated by (simpl; apply lookup_insert_eq). reflexivity.
    + erewrite IsPropagationStopped_allocated by (simpl; apply lookup_insert_eq).
      reflexivity.
  - destruct (callMethods_keep_stopped e later
                (mkMem (<[e := mkParamsEvent (name ev) true (params ev)]> (events m)) (vars m))
                (mkParamsEvent (name ev) true (params ev))) as (m4 & Hrun & Hst);
      [simpl; apply lookup_insert_eq | reflexivity |].
    eexists _, m4. split; [apply (StopPropagation_allocated _ _ _ Hev)|].
    split; [|split; assumption].
    erewrite IsPropagationStopped_allocated by (simpl; apply lookup_insert_eq).
    reflexivity.
Qed.

(* --------------------------------------------------------------------- *)
(** ** Names                                                              *)
(* --------------------------------------------------------------------- *)


Lemma collect_names (names acc : list string) :
  fold_left
    (fun results name => if String.eqb name "" then results else results ++ [name])
    names acc
  = acc ++ List.filter nonEmpty names.
Proof.
  revert acc. induction names as [|x xs IH]; intros acc; simpl.
  - now rewrite app_nil_r.
  - rewrite IH. unfold nonEmpty. destruct (String.eqb x ""); simpl; [reflexivity|].
    now rewrite <- app_assoc.
Qed.

Lemma getNames_filter (n : string) :
  getNames n = List.filter nonEmpty (strings_Split n " "%char).
Proof. unfold getNames. now rewrite collect_names. Qed.

Lemma strings_Split_not_nil (s : string) (sep : ascii) : strings_Split s sep <> [].
Proof.
  destruct s as [|c s]; simpl; [discriminate|].
  destruct (Ascii.eqb c sep); [discriminate|].
  destruct (strings_Split s sep); discriminate.
Qed.


Lemma strings_Split_no_sep (s : string) (sep : ascii) :
  occurs sep s = false -> strings_Split s sep = [s].
Proof.
  induction s as [|c s IH]; simpl; [reflexivity|].
  intros H. apply orb_false_iff in H as [Hc Hs].
  rewrite Hc, (IH Hs). reflexivity.
Qed.

Lemma strings_Split_pieces (s : string) (sep : ascii) (piece : string) :
  In piece (strings_Split s sep) -> occurs sep piece = false.
Proof.
  revert piece. induction s as [|c s IH]; simpl; intros piece H.
  - destruct H as [<-|[]]. reflexivity.
  - destruct (Ascii.eqb c sep) eqn:Hc.
    + destruct H as [<-|H]; [reflexivity|]. now apply IH.
    + destruct (strings_Split s sep) as [|p ps] eqn:Hsp.
      * destruct H as [<-|[]]. simpl. now rewrite Hc.
      * destruct H as [<-|H].
        -- simpl. rewrite Hc. simpl. apply IH. now left.
        -- apply IH. now right.
Qed.

(** An event name is a string that is not empty and has no space in it. *)
Lemma isName_iff (n : string) :
  isName n <-> n <> "" /\ occurs " "%char n = false.
Proof.
  unfold isName. rewrite getNames_filter. split.
  - intros H.
    assert (Hin : In n (List.filter nonEmpty (strings_Split n " "%char)))
      by (rewrite H; now left).
    apply filter_In in Hin as [Hin Hne]. split.
    + intros ->. discriminate.
    + eapply strings_Split_pieces, Hin.
  - intros [Hne Hsp]. rewrite (strings_Split_no_sep _ _ Hsp). simpl.
    unfold nonEmpty. destruct (String.eqb_spec n ""); [contradiction|reflexivity].
Qed.

(* --------------------------------------------------------------------- *)
(** ** Registration and removal                                           *)
(* --------------------------------------------------------------------- *)


Lemma dispatcher_unlocked (d : EventDispatcher) :
  unlocked d -> d = mkDispatcher unlockedMutex (listeners d).
Proof. destruct d as [mu ls]. unfold unlocked. simpl. now intros ->. Qed.

Lemma on_unlocked (n : string) (l : Listener) (d : EventDispatcher) :
  unlocked d ->
  on n l d = Ok (tt, mkDispatcher unlockedMutex (registered l (listeners d) n)).
Proof. intros H. rewrite (dispatcher_unlocked d H). reflexivity. Qed.

Lemma for_each_on (f : string -> Listener * string) (names : list string) :
  forall ls : gmap string listenersCollection,
    for_each (fun name => on (snd (f name)) (fst (f name))) names
      (mkDispatcher unlockedMutex ls)
    = Ok (tt, mkDispatcher unlockedMutex
                (fold_left (fun ls name => registered (fst (f name)) ls (snd (f name)))
                   names ls)).
Proof.
  induction names as [|x xs IH]; intros ls; simpl; [reflexivity|].
  unfold bind. rewrite on_unlocked by reflexivity. simpl. apply IH.
Qed.

Lemma On_unlocked (n : string) (l : Listener) (d : EventDispatcher) :
  unlocked d ->
  On n l d = Ok (tt, mkDispatcher unlockedMutex
                       (fold_left (registered l) (getNames n) (listeners d))).
Proof.
  intros H. rewrite (dispatcher_unlocked d H). unfold On.
  apply (for_each_on (fun name => (l, name))).
Qed.

Lemma Once_unlocked (n : string) (l : Listener) (d : EventDispatcher) :
  unlocked d ->
  Once n l d
  = Ok (tt, mkDispatcher unlockedMutex
              (fold_left (fun ls name => registered (OnceFunc name l) ls n)
                 (getNames n) (listeners d))).
Proof.
  intros H. rewrite (dispatcher_unlocked d H). unfold Once.
  apply (for_each_on (fun name => (executeRemove name l, n))).
Qed.

Lemma backing_sliceOf (a : list Listener) (k : nat) : backing (sliceOf a k) = a.
Proof. unfold backing, sliceOf. simpl. apply take_drop. Qed.

Lemma length_shiftDown (i len0 : nat) (a : list Listener) :
  i < len0 <= length a -> length (shiftDown i len0 a) = length a.
Proof.
  intros H. unfold shiftDown.
  rewrite !length_app, !length_drop, !length_take. lia.
Qed.

Lemma scan_miss (p : codeptr) (len0 k : nat) :
  forall (i : nat) (a : list Listener),
    snd (scan p len0 k i a) = false -> fst (scan p len0 k i a) = a.
Proof.
  induction k as [|k IH]; intros i a; simpl; [reflexivity|].
  destruct (a !! i) as [l|]; [|reflexivity].
  destruct (decide (Pointer l = p)); simpl; [discriminate|]. apply IH.
Qed.

Lemma length_scan (p : codeptr) (len0 k : nat) :
  forall (i : nat) (a : list Listener),
    i + k = len0 -> len0 <= length a ->
    length (fst (scan p len0 k i a)) = length a.
Proof.
  induction k as [|k IH]; intros i a Hik Hlen; simpl; [reflexivity|].
  destruct (a !! i) as [l|]; [|reflexivity].
  destruct (decide (Pointer l = p)); simpl.
  - rewrite IH; rewrite ?length_shiftDown; lia.
  - apply IH; lia.
Qed.

Lemma listenersAt_set (mu : sync_RWMutex) (ls : gmap string listenersCollection)
    (n : string) (s : listenersCollection) :
  listenersAt (mkDispatcher mu (<[n := s]> ls)) n = s.
Proof. unfold listenersAt. simpl. now rewrite lookup_insert_eq. Qed.

(** The loop of [Off] computes [scan] on the array of the entry. *)
Lemma Off_loop_scan (p : codeptr) (n : string) (len0 k : nat) :
  forall (i : nat) (d : EventDispatcher),
    i + k = len0 -> len0 <= length (backing (listenersAt d n)) ->
    Off_loop p n len0 k i d
    = Ok (tt, let r := scan p len0 k i (backing (listenersAt d n)) in
              if snd r
              then mkDispatcher (RWMutex d)
                     (<[n := sliceOf (fst r) (len0 - 1)]> (listeners d))
              else d).
Proof.
  induction k as [|k IH]; intros i d Hik Hlen; simpl; [reflexivity|].
  unfold bind at 1, get.
  destruct (backing (listenersAt d n) !! i) as [l|] eqn:Hl.
  2:{ apply lookup_ge_None in Hl. lia. }
  destruct (decide (Pointer l = p)) as [Hp|Hp]; unfold bind, ret, setListeners.
  - rewrite IH; simpl; rewrite ?listenersAt_set, ?backing_sliceOf,
      ?length_shiftDown; try lia.
    destruct (snd (scan p len0 k (S i) (shiftDown i len0 (backing (listenersAt d n)))))
      eqn:Hhit.
    + now rewrite insert_insert_eq.
    + now rewrite (scan_miss _ _ _ _ _ Hhit).
  - rewrite IH by (assumption || lia). reflexivity.
Qed.

Lemma Off_unlocked (n : string) (l : Listener) (d : EventDispatcher) :
  unlocked d ->
  Off n l d = Ok (tt, mkDispatcher unlockedMutex (removed n l (listeners d))).
Proof.
  intros H. rewrite (dispatcher_unlocked d H). unfold Off, bind at 1. simpl.
  unfold bind at 1. unfold bind at 1. unfold get.
  rewrite Off_loop_scan.
  2: reflexivity.
  2:{ unfold backing. rewrite length_app. lia. }
  unfold removed, listenersAt. simpl.
  destruct (snd (scan _ _ _ _ _)); reflexivity.
Qed.

Lemma OffAll_unlocked (n : string) (d : EventDispatcher) :
  unlocked d ->
  OffAll n d = Ok (tt, mkDispatcher unlockedMutex (delete n (listeners d))).
Proof.
  intros H. rewrite (dispatcher_unlocked d H). unfold OffAll, bind, get. simpl.
  destruct (listeners d !! n) eqn:Hn.
  - reflexivity.
  - unfold ret. simpl. now rewrite delete_id.
Qed.

Lemma HasListeners_value (n : string) (d : EventDispatcher) :
  HasListeners n d
  = Ok (negb (Nat.eqb (length (elems (listenersAt d n))) 0), d).
Proof.
  unfold HasListeners, bind, get, listenersAt.
  destruct (listeners d !! n); reflexivity.
Qed.

Lemma scan_no_match (p : codeptr) (len0 k : nat) :
  forall (i : nat) (a : list Listener),
    (forall j x, i <= j < i + k -> a !! j = Some x -> Pointer x <> p) ->
    scan p len0 k i a = (a, false).
Proof.
  induction k as [|k IH]; intros i a H; simpl; [reflexivity|].
  destruct (a !! i) as [l|] eqn:Hl; [|reflexivity].
  destruct (decide (Pointer l = p)) as [Hp|Hp].
  - exfalso. apply (H i l); [lia|assumption|assumption].
  - apply IH. intros j x Hj. apply H. lia.
Qed.

Lemma scan_skip (p : codeptr) (len0 k j : nat) :
  forall (i : nat) (a : list Listener),
    (forall j' x, i <= j' < i + j -> a !! j' = Some x -> Pointer x <> p) ->
    i + j <= length a ->
    scan p len0 (j + k) i a = scan p len0 k (i + j) a.
Proof.
  induction j as [|j IH]; intros i a H Hlen; simpl.
  - now rewrite Nat.add_0_r.
  - destruct (a !! i) as [l|] eqn:Hl.
    2:{ apply lookup_ge_None in Hl. lia. }
    destruct (decide (Pointer l = p)) as [Hp|Hp].
    + exfalso. apply (H i l); [lia|assumption|assumption].
    + rewrite IH; [f_equal; lia| |lia]. intros j' x Hj'. apply H. lia.
Qed.

Lemma removed_other (n m : string) (l : Listener)
    (ls : gmap string listenersCollection) :
  m <> n -> removed n l ls !! m = ls !! m.
Proof.
  intros Hne. unfold removed. destruct (snd _); [|reflexivity].
  apply lookup_insert_ne. congruence.
Qed.

(** [Off] changes nothing when no element of the sequence has the pointer
    of [l]; a name that is not in the map has the empty sequence. *)
Lemma removed_no_match (n : string) (l : Listener)
    (ls : gmap string listenersCollection) :
  Forall (fun x => Pointer x <> Pointer l) (elems (default nilSlice (ls !! n))) ->
  removed n l ls = ls.
Proof.
  intros H. unfold removed. rewrite scan_no_match; [reflexivity|].
  intros j x Hj Hx. unfold backing in Hx.
  rewrite lookup_app_l in Hx by lia.
  rewrite Forall_forall in H. apply H. eapply list_elem_of_lookup_2, Hx.
Qed.

Lemma shiftDown_at (pre post sp : list Listener) (x : Listener) :
  shiftDown (length pre) (length pre + S (length post)) (pre ++ x :: post ++ sp)
  = pre ++ post ++ drop (length post) (x :: post) ++ sp.
Proof.
  unfold shiftDown.
  rewrite take_app_length.
  replace (S (length pre)) with (length (pre ++ [x])) by (rewrite length_app; simpl; lia).
  replace (pre ++ x :: post ++ sp) with ((pre ++ x :: post) ++ sp)
    by (now rewrite <- app_assoc).
  rewrite (take_app_length' (pre ++ x :: post)) by (rewrite length_app; simpl; lia).
  replace (pre ++ x :: post) with ((pre ++ [x]) ++ post) at 1
    by (now rewrite <- app_assoc).
  rewrite drop_app_length.
  f_equal. f_equal.
  replace (length pre + S (length post) - 1) with (length pre + length post) by lia.
  rewrite drop_app_le by (rewrite length_app; simpl; lia).
  f_equal. rewrite drop_app_ge by lia. f_equal; lia.
Qed.

(** When exactly one element of the sequence has the pointer of [l], [Off]
    takes that element out and keeps the others in their order. *)
Lemma removed_single (n : string) (l x : Listener) (pre post : list Listener)
    (ls : gmap string listenersCollection) :
  elems (default nilSlice (ls !! n)) = pre ++ x :: post ->
  Pointer x = Pointer l ->
  Forall (fun y => Pointer y <> Pointer l) pre ->
  Forall (fun y => Pointer y <> Pointer l) post ->
  elems (default nilSlice (removed n l ls !! n)) = pre ++ post.
Proof.
  intros He Hx Hpre Hpost. unfold removed.
  set (s := default nilSlice (ls !! n)) in *.
  assert (Ha : backing s = pre ++ x :: post ++ spare s).
  { unfold backing. rewrite He, <- app_assoc. reflexivity. }
  assert (Hlen : length (elems s) = length pre + S (length post)).
  { rewrite He, length_app. simpl. lia. }
  rewrite Hlen, Ha.
  rewrite !(scan_skip _ _ (S (length post)) (length pre) 0);
    [ | intros j y Hj Hy; rewrite lookup_app_l in Hy by lia;
        rewrite Forall_forall in Hpre; apply Hpre;
        eapply list_elem_of_lookup_2, Hy
      | rewrite length_app; lia ].
  simpl.
  rewrite list_lookup_middle by reflexivity.
  rewrite decide_True by assumption. simpl.
  rewrite lookup_insert_eq. simpl.
  rewrite shiftDown_at.
  rewrite scan_no_match.
  - simpl. replace (length pre + S (length post) - 1) with (length (pre ++ post))
      by (rewrite length_app; lia).
    replace (pre ++ post ++ drop (length post) (x :: post) ++ spare s)
      with ((pre ++ post) ++ drop (length post) (x :: post) ++ spare s)
      by (now rewrite <- app_assoc).
    now rewrite take_app_length.
  - intros j y Hj Hy.
    assert (Hin : y ∈ post); [|rewrite Forall_forall in Hpost; now apply Hpost].
    rewrite lookup_app_r in Hy by lia.
    destruct (decide (j - length pre < length post)) as [Hlt|Hge].
    + rewrite lookup_app_l in Hy by lia. eapply list_elem_of_lookup_2, Hy.
    + rewrite lookup_app_r in Hy by lia.
      assert (Hj0 : j - length pre - length post = 0) by lia.
      rewrite Hj0 in Hy.
      destruct post as [|y0 post'] using rev_ind; [simpl in *; lia|].
      rewrite length_app in Hy. simpl in Hy.
      replace (x :: post' ++ [y0]) with ((x :: post') ++ [y0]) in Hy by reflexivity.
      rewrite drop_app_length' in Hy by (simpl; lia).
      simpl in Hy. injection Hy as <-. apply elem_of_app. right. now left.
Qed.

(* --------------------------------------------------------------------- *)
(** ** Dispatch                                                           *)
(* --------------------------------------------------------------------- *)


Lemma call_reading (l : Listener) (e : loc) :
  forall w : World,
    RWMutex (disp w) = readingMutex ->
    call l e w
    = Ok (tt, mkWorld (mkDispatcher readingMutex (afterCall l (listeners (disp w))))
                (effect l e (mem w)) (calls w)).
Proof.
  induction l as [c body|n l IH]; intros [[mu ls] m cs]; simpl; intros ->.
  - reflexivity.
  - unfold bind at 1. rewrite IH by reflexivity.
    unfold bind at 1. simpl.
    unfold bind at 1. unfold onDisp at 1. simpl.
    rewrite Off_unlocked by reflexivity. reflexivity.
Qed.

Lemma length_backing_removed (n m : string) (l : Listener)
    (ls : gmap string listenersCollection) :
  length (backing (default nilSlice (removed n l ls !! m)))
  = length (backing (default nilSlice (ls !! m))).
Proof.
  destruct (decide (m = n)) as [->|Hne].
  2:{ now rewrite removed_other. }
  unfold removed. destruct (snd _) eqn:Hhit; [|reflexivity].
  rewrite lookup_insert_eq. simpl. rewrite backing_sliceOf.
  apply length_scan; [reflexivity|].
  unfold backing. rewrite length_app. lia.
Qed.

Lemma length_backing_afterCall (l : Listener) (m : string) :
  forall ls : gmap string listenersCollection,
    length (backing (default nilSlice (afterCall l ls !! m)))
    = length (backing (default nilSlice (ls !! m))).
Proof.
  induction l as [c body|n l IH]; intros ls; simpl; [reflexivity|].
  now rewrite length_backing_removed.
Qed.

(** The loop of [dispatch] returns, having called the listeners of
    [schedule]. *)
Lemma dispatch_loop_schedule (nm : string) (e : loc) (k : nat) :
  forall (i : nat) (w : World),
    RWMutex (disp w) = readingMutex ->
    i + k <= length (backing (listenersAt (disp w) nm)) ->
    dispatch_loop nm e k i w
    = Ok (tt, let r := schedule nm k i (listeners (disp w)) in
              mkWorld (mkDispatcher readingMutex (snd r))
                (effects (fst r) e (mem w))
                (calls w ++ called (fst r) e)).
Proof.
  induction k as [|k IH]; intros i [[mu ls] m cs]; simpl; intros -> Hlen.
  - unfold ret, called. simpl. now rewrite app_nil_r.
  - unfold bind at 1, get. unfold listenersAt in *. simpl in *.
    destruct (backing (default nilSlice (ls !! nm)) !! i) as [l|] eqn:Hl.
    2:{ apply lookup_ge_None in Hl. lia. }
    unfold bind at 1, record. simpl.
    unfold bind at 1. rewrite call_reading by reflexivity. simpl.
    rewrite IH; simpl.
    + unfold called. simpl. now rewrite <- app_assoc.
    + reflexivity.
    + unfold listenersAt. simpl. rewrite length_backing_afterCall. lia.
Qed.

(** [Dispatch] on a dispatcher that nobody holds, with an event that
    exists, returns the event it was given. *)
Lemma Dispatch_unlocked (d : EventDispatcher) (m : Mem) (cs : list (Listener * loc))
    (e : loc) (ev : ParamsEvent) :
  unlocked d -> events m !! e = Some ev ->
  Dispatch e (mkWorld d m cs)
  = Ok (e, let r := schedule (name ev) (length (elems (listenersAt d (name ev)))) 0
                      (listeners d) in
           mkWorld (mkDispatcher unlockedMutex (snd r))
             (effects (fst r) e m) (cs ++ called (fst r) e)).
Proof.
  intros H Hev. rewrite (dispatcher_unlocked d H).
  unfold Dispatch, bind at 1. simpl.
  unfold dispatch, bind at 1. unfold onMem. simpl.
  rewrite (Name_allocated _ _ _ Hev).
  unfold bind at 1, get. unfold bind at 1.
  rewrite dispatch_loop_schedule.
  - reflexivity.
  - reflexivity.
  - simpl. unfold backing. rewrite length_app. lia.
Qed.

(* --------------------------------------------------------------------- *)
(** ** Runs of the once-listener and of [Off] on the tests' inputs        *)
(* --------------------------------------------------------------------- *)

(** Two registrations of one listener under a name that had none, and
    [Off]: the second registration stays. *)
Lemma removed_of_two (n : string) (l : Listener)
    (ls : gmap string listenersCollection) :
  ls !! n = None ->
  elems (default nilSlice
           (removed n l (registered l (registered l ls n) n) !! n)) = [l].
Proof.
  intros Hn. unfold removed.
  assert (Hs : default nilSlice (registered l (registered l ls n) n !! n)
               = mkSlice [l; l] []).
  { unfold registered. rewrite !lookup_insert_eq, Hn. reflexivity. }
  rewrite Hs. unfold backing. cbn [elems spare length app scan lookup list_lookup].
  rewrite decide_True by reflexivity.
  cbn [fst snd]. rewrite lookup_insert_eq.
  unfold shiftDown. cbn [take drop firstn skipn app Nat.sub scan lookup list_lookup].
  rewrite decide_True by reflexivity. reflexivity.
Qed.

(** C2. [Off] does not remove every entry that has the pointer of the
    listener. Registered twice under "test_event" on a new dispatcher, a
    listener [l] is still registered after [Off "test_event" l]: the loop
    of [Off] moves the second entry onto the first, assigns the shorter
    slice, and then meets at index 1 the copy of the second entry that the
    move left behind, for which it assigns the same shorter slice again. *)
Theorem Off_leaves_second_registration (l : Listener) :
  exists d,
    (On "test_event" l ;;; On "test_event" l ;;; Off "test_event" l)
      newEventDispatcher = Ok (tt, d) /\
    elems (listenersAt d "test_event") = [l] /\
    HasListeners "test_event" d = Ok (true, d).
Proof.
  eexists. unfold bind.
  rewrite On_unlocked by reflexivity.
  rewrite On_unlocked by reflexivity.
  rewrite Off_unlocked by reflexivity.
  split; [reflexivity|].
  rewrite HasListeners_value. unfold listenersAt.
  cbn [listeners].
  change (getNames "test_event") with ["test_event"].
  cbn [fold_left].
  rewrite removed_of_two by apply lookup_empty.
  split; reflexivity.
Qed.

(** The two runs below, for any functions of the caller: the dispatcher
    part is computed, the functions stay as they are. *)
Lemma run_once_on_once (c1 cp c2 : nat) (b1 bp b2 : loc -> Mem -> Mem) :
  let l1 := Func c1 b1 in
  let p := Func cp bp in
  let l2 := Func c2 b2 in
  exists d e m0 w,
    (Once "a" l1 ;;; On "a" p ;;; Once "a" l2) newEventDispatcher = Ok (tt, d) /\
    elems (listenersAt d "a") = [OnceFunc "a" l1; p; OnceFunc "a" l2] /\
    NewParamsEvent "a" emptyMem = Ok (e, m0) /\
    Dispatch e (mkWorld d m0 []) = Ok (e, w) /\
    calls w = [(OnceFunc "a" l1, e); (OnceFunc "a" l2, e); (OnceFunc "a" l2, e)] /\
    mem w = b2 e (b2 e (b1 e m0)) /\
    vars m0 = ∅ /\
    elems (listenersAt (disp w) "a") = [p].
Proof.
  intros l1 p l2. eexists _, _, _, _.
  split; [vm_compute; reflexivity|].
  split; [vm_compute; reflexivity|].
  split; [vm_compute; reflexivity|].
  split; [vm_compute; reflexivity|].
  repeat split; vm_compute; reflexivity.
Qed.

Lemma run_three_once (c1 c2 c3 : nat) (b1 b2 b3 : loc -> Mem -> Mem) :
  let l1 := Func c1 b1 in
  let l2 := Func c2 b2 in
  let l3 := Func c3 b3 in
  exists d e m0 w,
    (Once "a" l1 ;;; Once "a" l2 ;;; Once "a" l3) newEventDispatcher = Ok (tt, d) /\
    NewParamsEvent "a" emptyMem = Ok (e, m0) /\
    Dispatch e (mkWorld d m0 []) = Ok (e, w) /\
    calls w = [(OnceFunc "a" l1, e); (OnceFunc "a" l3, e); (OnceFunc "a" l3, e)] /\
    mem w = b3 e (b3 e (b1 e m0)) /\
    vars m0 = ∅.
Proof.
  intros l1 l2 l3. eexists _, _, _, _.
  split; [vm_compute; reflexivity|].
  split; [vm_compute; reflexivity|].
  split; [vm_compute; reflexivity|].
  repeat split; vm_compute; reflexivity.
Qed.

Lemma run_once_two_names (c1 : nat) (b1 : loc -> Mem -> Mem) :
  let l1 := Func c1 b1 in
  exists d e m0 w,
    Once "a b" l1 newEventDispatcher = Ok (tt, d) /\
    HasListeners "a" d = Ok (false, d) /\
    HasListeners "b" d = Ok (false, d) /\
    elems (listenersAt d "a b") = [OnceFunc "a" l1; OnceFunc "b" l1] /\
    NewParamsEvent "a b" emptyMem = Ok (e, m0) /\
    Dispatch e (mkWorld d m0 []) = Ok (e, w) /\
    mem w = b1 e (b1 e m0) /\
    vars m0 = ∅ /\
    HasListeners "a b" (disp w) = Ok (true, disp w).
Proof.
  intros l1. eexists _, _, _, _.
  split; [vm_compute; reflexivity|].
  split; [vm_compute; reflexivity|].
  split; [vm_compute; reflexivity|].
  split; [vm_compute; reflexivity|].
  split; [vm_compute; reflexivity|].
  split; [vm_compute; reflexivity|].
  repeat split; vm_compute; reflexivity.
Qed.

Lemma vars_increment (x y : string) (e : loc) (m : Mem) :
  vars (increment x e m) !! y
  = if decide (x = y) then Some (wrapInt (default 0 (vars m !! x) + 1)%Z)
    else vars m !! y.
Proof. unfold increment. cbn [vars]. apply lookup_insert. Qed.

Ltac count_vars Hm Hv :=
  rewrite Hm, !vars_increment, Hv, ?lookup_empty;
  repeat (first [rewrite decide_True by reflexivity
                |rewrite decide_False by discriminate]);
  rewrite ?lookup_empty; reflexivity.

(** C3. [Dispatch] does not call each registered listener once. After
    [Once "a" l1], [On "a" p], [Once "a" l2] on a new dispatcher, one
    [Dispatch] of an event named "a" calls the wrapper of [l1], then the
    wrapper of [l2] twice, and never calls [p]: the [Off] of the first
    wrapper moves the entries down in the array that the loop of
    [dispatch] is ranging over. *)
Theorem Dispatch_skips_a_listener :
  let l1 := counter 1 "c1" in
  let p := counter 2 "p" in
  let l2 := counter 3 "c2" in
  exists d e m0 w,
    (Once "a" l1 ;;; On "a" p ;;; Once "a" l2) newEventDispatcher = Ok (tt, d) /\
    elems (listenersAt d "a") = [OnceFunc "a" l1; p; OnceFunc "a" l2] /\
    NewParamsEvent "a" emptyMem = Ok (e, m0) /\
    Dispatch e (mkWorld d m0 []) = Ok (e, w) /\
    calls w = [(OnceFunc "a" l1, e); (OnceFunc "a" l2, e); (OnceFunc "a" l2, e)] /\
    vars (mem w) !! "c1" = Some 1%Z /\
    vars (mem w) !! "p" = None /\
    vars (mem w) !! "c2" = Some 2%Z /\
    elems (listenersAt (disp w) "a") = [p].
Proof.
  intros l1 p l2.
  destruct (run_once_on_once 1 2 3 (increment "c1") (increment "p") (increment "c2"))
    as (d & e & m0 & w & Hreg & Hel & Hev & Hrun & Hcalls & Hm & Hv & Hleft).
  exists d, e, m0, w.
  split; [exact Hreg|]. split; [exact Hel|]. split; [exact Hev|].
  split; [exact Hrun|]. split; [exact Hcalls|].
  split; [count_vars Hm Hv|]. split; [count_vars Hm Hv|].
  split; [count_vars Hm Hv|]. exact Hleft.
Qed.

(** C8. [Dispatch] does not call every registered listener of the name
    when an earlier listener of the same dispatch has stopped the
    propagation. After [Once "a" s], [On "a" p], [Once "a" l2] on a new
    dispatcher, with [s] a listener that calls [StopPropagation], one
    [Dispatch] of an event named "a" calls the wrapper of [s], then the
    wrapper of [l2] twice, and never calls [p], which stays registered;
    the flag of the event is set at the end. The flag is not what keeps
    [p] from being called: the run with a first listener that leaves the
    flag alone makes the same calls. It is the [Off] of the first wrapper,
    which moves the entries down in the array that the loop of [dispatch]
    is ranging over. *)
Theorem Dispatch_skips_a_listener_after_StopPropagation :
  let s := stopper 1 in
  let p := counter 2 "p" in
  let l2 := counter 3 "c2" in
  exists d e m0 w,
    (Once "a" s ;;; On "a" p ;;; Once "a" l2) newEventDispatcher = Ok (tt, d) /\
    elems (listenersAt d "a") = [OnceFunc "a" s; p; OnceFunc "a" l2] /\
    NewParamsEvent "a" emptyMem = Ok (e, m0) /\
    IsPropagationStopped e m0 = Ok (false, m0) /\
    Dispatch e (mkWorld d m0 []) = Ok (e, w) /\
    calls w = [(OnceFunc "a" s, e); (OnceFunc "a" l2, e); (OnceFunc "a" l2, e)] /\
    IsPropagationStopped e (mem w) = Ok (true, mem w) /\
    vars (mem w) !! "p" = None /\
    vars (mem w) !! "c2" = Some 2%Z /\
    elems (listenersAt (disp w) "a") = [p].
Proof.
  intros s p l2.
  destruct (run_once_on_once 1 2 3 stopPropagation (increment "p") (increment "c2"))
    as (d & e & m0 & w & Hreg & Hel & Hev & Hrun & Hcalls & Hm & Hv & Hleft).
  exists d, e, m0, w.
  split; [exact Hreg|]. split; [exact Hel|]. split; [exact Hev|].
  assert (Hflags : IsPropagationStopped e m0 = Ok (false, m0) /\
                   IsPropagationStopped e (mem w) = Ok (true, mem w) /\
                   vars (mem w) !! "p" = None /\
                   vars (mem w) !! "c2" = Some 2%Z).
  { rewrite Hm. clear - Hev. vm_compute in Hev.
    injection Hev as He Hm0. subst e m0.
    repeat split; vm_compute; reflexivity. }
  destruct Hflags as (H0 & H1 & Hp & Hc2).
  split; [exact H0|]. split; [exact Hrun|]. split; [exact Hcalls|].
  split; [exact H1|]. split; [exact Hp|]. split; [exact Hc2|]. exact Hleft.
Qed.

(** C1. [Once] does not make a listener run once for every dispatcher and
    name. Three listeners registered with [Once] under "a" on a new
    dispatcher: one [Dispatch] of an event named "a" runs [l1] once, [l3]
    twice and [l2] never, the wrapper of [l3] having removed, on its first
    call, the wrapper of [l2] and not itself. And [Once "a b" l] on a new
    dispatcher registers its two wrappers under the key "a b", none under
    "a" or "b": dispatching "a" or "b" runs nothing, and a dispatch of an
    event named "a b" runs [l] twice and removes neither wrapper. *)
Theorem Once_runs_twice_or_never :
  let l1 := counter 1 "c1" in
  let l2 := counter 2 "c2" in
  let l3 := counter 3 "c3" in
  (exists d e m0 w,
      (Once "a" l1 ;;; Once "a" l2 ;;; Once "a" l3) newEventDispatcher = Ok (tt, d) /\
      NewParamsEvent "a" emptyMem = Ok (e, m0) /\
      Dispatch e (mkWorld d m0 []) = Ok (e, w) /\
      calls w = [(OnceFunc "a" l1, e); (OnceFunc "a" l3, e); (OnceFunc "a" l3, e)] /\
      vars (mem w) !! "c1" = Some 1%Z /\
      vars (mem w) !! "c2" = None /\
      vars (mem w) !! "c3" = Some 2%Z) /\
  (exists d e m0 w,
      Once "a b" l1 newEventDispatcher = Ok (tt, d) /\
      HasListeners "a" d = Ok (false, d) /\
      HasListeners "b" d = Ok (false, d) /\
      elems (listenersAt d "a b") = [OnceFunc "a" l1; OnceFunc "b" l1] /\
      NewParamsEvent "a b" emptyMem = Ok (e, m0) /\
      Dispatch e (mkWorld d m0 []) = Ok (e, w) /\
      vars (mem w) !! "c1" = Some 2%Z /\
      HasListeners "a b" (disp w) = Ok (true, disp w)).
Proof.
  intros l1 l2 l3. split.
  - destruct (run_three_once 1 2 3 (increment "c1") (increment "c2") (increment "c3"))
      as (d & e & m0 & w & Hreg & Hev & Hrun & Hcalls & Hm & Hv).
    exists d, e, m0, w.
    split; [exact Hreg|]. split; [exact Hev|]. split; [exact Hrun|].
    split; [exact Hcalls|].
    split; [count_vars Hm Hv|]. split; [count_vars Hm Hv|]. count_vars Hm Hv.
  - destruct (run_once_two_names 1 (increment "c1"))
      as (d & e & m0 & w & Hreg & Ha & Hb & Hel & Hev & Hrun & Hm & Hv & Hleft).
    exists d, e, m0, w.
    split; [exact Hreg|]. split; [exact Ha|]. split; [exact Hb|].
    split; [exact Hel|]. split; [exact Hev|]. split; [exact Hrun|].
    split; [count_vars Hm Hv|]. exact Hleft.
Qed.


(* --------------------------------------------------------------------- *)
(** ** What the methods do to the map                                     *)
(* --------------------------------------------------------------------- *)

Lemma registered_elems (l : Listener) (ls : gmap string listenersCollection)
    (n nm : string) :
  elems (default nilSlice (registered l ls n !! nm))
  = elems (default nilSlice (ls !! nm)) ++ (if decide (n = nm) then [l] else []).
Proof.
  unfold registered. destruct (decide (n = nm)) as [->|Hne].
  - now rewrite lookup_insert_eq.
  - rewrite lookup_insert_ne by assumption. now rewrite app_nil_r.
Qed.

Lemma registered_all_elems (l : Listener) (names : list string) (nm : string) :
  forall ls : gmap string listenersCollection,
    elems (default nilSlice (fold_left (registered l) names ls !! nm))
    = elems (default nilSlice (ls !! nm))
      ++ repeat l (count_occ string_dec names nm).
Proof.
  induction names as [|n names IH]; intros ls; simpl.
  - now rewrite app_nil_r.
  - rewrite IH, registered_elems, <- app_assoc. f_equal.
    destruct (string_dec n nm) as [->|Hne].
    + now rewrite decide_True.
    + now rewrite decide_False.
Qed.

Lemma registered_all_other (l : Listener) (names : list string) (nm : string) :
  forall ls : gmap string listenersCollection,
    ~ In nm names ->
    fold_left (registered l) names ls !! nm = ls !! nm.
Proof.
  induction names as [|n names IH]; intros ls Hnot; simpl; [reflexivity|].
  rewrite IH by (intros H; apply Hnot; now right).
  unfold registered. apply lookup_insert_ne. intros ->. apply Hnot. now left.
Qed.

(** C6. [OffAll n] erases the key [n] from the map, and changes nothing
    when [n] is not a key; after it, whatever was registered under [n],
    [HasListeners n] is false and a [Dispatch] of an event named [n] calls
    no listener and leaves the memory as it was. *)
Theorem OffAll_erases_the_name (d : EventDispatcher) (n : string) (m : Mem)
    (cs : list (Listener * loc)) (e : loc) (ev : ParamsEvent) :
  unlocked d -> events m !! e = Some ev -> name ev = n ->
  exists d',
    OffAll n d = Ok (tt, d') /\
    listeners d' = delete n (listeners d) /\
    listeners d' !! n = None /\
    (listeners d !! n = None -> d' = d) /\
    HasListeners n d' = Ok (false, d') /\
    Dispatch e (mkWorld d' m cs) = Ok (e, mkWorld d' m cs).
Proof.
  intros H Hev Hn. eexists. split; [apply OffAll_unlocked, H|].
  split; [reflexivity|]. simpl.
  split; [apply lookup_delete_eq|].
  split.
  { intros Hnone. rewrite delete_id by assumption.
    symmetry. apply dispatcher_unlocked, H. }
  split.
  { rewrite HasListeners_value. unfold listenersAt. simpl.
    now rewrite lookup_delete_eq. }
  rewrite (Dispatch_unlocked (mkDispatcher unlockedMutex (delete n (listeners d)))
             m cs e ev eq_refl Hev). rewrite Hn.
  unfold listenersAt. simpl. rewrite lookup_delete_eq. simpl.
  unfold called. simpl. now rewrite app_nil_r.
Qed.

(** C5. [HasListeners n] is true exactly when [n] is a key of the map and
    its sequence is not empty: a missing key and a key with the empty
    sequence both give false. After [On n l], when [n] is one event name
    (not empty, no space in it), [HasListeners n] is true; and when [n]
    had no listener before that [On], it is false again after [Off n l]. *)
Theorem HasListeners_iff_registered (d : EventDispatcher) (n : string) (l : Listener) :
  (exists b, HasListeners n d = Ok (b, d) /\
             (b = true <-> exists s, listeners d !! n = Some s /\ elems s <> [])) /\
  (listeners d !! n = None -> HasListeners n d = Ok (false, d)) /\
  (forall s, listeners d !! n = Some s -> elems s = [] ->
             HasListeners n d = Ok (false, d)) /\
  (unlocked d -> isName n ->
   exists d1, On n l d = Ok (tt, d1) /\
              HasListeners n d1 = Ok (true, d1) /\
              (elems (listenersAt d n) = [] ->
               exists d2, Off n l d1 = Ok (tt, d2) /\
                          elems (listenersAt d2 n) = [] /\
                          HasListeners n d2 = Ok (false, d2))).
Proof.
  split; [|split; [|split]].
  - eexists. split; [apply HasListeners_value|].
    unfold listenersAt. destruct (listeners d !! n) as [s|] eqn:Hs; simpl.
    + destruct (elems s) as [|x xs] eqn:He; simpl.
      * split; [discriminate|]. intros (s' & [= <-] & Hne). congruence.
      * split; [|reflexivity]. intros _. exists s. split; [reflexivity|].
        rewrite He. discriminate.
    + split; [discriminate|]. intros (s' & [=] & _).
  - intros Hnone. rewrite HasListeners_value. unfold listenersAt. now rewrite Hnone.
  - intros s Hs He. rewrite HasListeners_value. unfold listenersAt.
    rewrite Hs. simpl. now rewrite He.
  - intros H Hname. eexists. split; [apply On_unlocked, H|].
    rewrite Hname. simpl.
    split.
    { rewrite HasListeners_value. unfold listenersAt. simpl.
      rewrite registered_elems, decide_True by reflexivity.
      rewrite length_app. simpl. now rewrite Nat.add_1_r. }
    intros Hempty. eexists. split; [apply Off_unlocked; reflexivity|].
    simpl.
    assert (He : elems (listenersAt
                          (mkDispatcher unlockedMutex
                             (removed n l (registered l (listeners d) n))) n) = []).
    { unfold listenersAt. simpl.
      rewrite (removed_single n l l [] []); [reflexivity| | | |].
      - rewrite registered_elems, decide_True by reflexivity.
        unfold listenersAt in Hempty. now rewrite Hempty.
      - reflexivity.
      - constructor.
      - constructor. }
    split; [exact He|].
    rewrite HasListeners_value. now rewrite He.
Qed.

Lemma On_of_no_name (l : Listener) :
  exists d1 d2,
    On "a b" l newEventDispatcher = Ok (tt, d1) /\
    HasListeners "a b" d1 = Ok (false, d1) /\
    HasListeners "a" d1 = Ok (true, d1) /\
    HasListeners "b" d1 = Ok (true, d1) /\
    On "" l newEventDispatcher = Ok (tt, d2) /\
    d2 = newEventDispatcher /\
    HasListeners "" d2 = Ok (false, d2).
Proof.
  eexists _, _.
  split; [vm_compute; reflexivity|].
  split; [vm_compute; reflexivity|].
  split; [vm_compute; reflexivity|].
  split; [vm_compute; reflexivity|].
  split; [vm_compute; reflexivity|].
  split; vm_compute; reflexivity.
Qed.

(** C5 does not hold for all [n]: [On] registers under the names that the
    string lists, not under the string. After [On "a b" l] on a new
    dispatcher [HasListeners "a b"] is false, [l] being registered under
    "a" and under "b"; and after [On "" l], which registers nothing,
    [HasListeners ""] is false. *)
Lemma HasListeners_false_after_On :
  exists d1 d2,
    On "a b" (counter 1 "c") newEventDispatcher = Ok (tt, d1) /\
    HasListeners "a b" d1 = Ok (false, d1) /\
    HasListeners "a" d1 = Ok (true, d1) /\
    HasListeners "b" d1 = Ok (true, d1) /\
    On "" (counter 1 "c") newEventDispatcher = Ok (tt, d2) /\
    d2 = newEventDispatcher /\
    HasListeners "" d2 = Ok (false, d2).
Proof. exact (On_of_no_name (counter 1 "c")). Qed.

(** C10. The sequences of the other names are not touched: [On n l]
    leaves every name that is not among the names of [n] as it is, [Off n l]
    and [OffAll n] every name but [n]. When one entry under [n] has the
    pointer of [l], [Off n l] takes it out and keeps the entries before and
    after it in their order. [HasListeners] returns the dispatcher as it
    found it. *)
Theorem other_names_keep_their_listeners (d : EventDispatcher) (n m : string)
    (l : Listener) :
  unlocked d ->
  (exists d1, On n l d = Ok (tt, d1) /\
              (~ In m (getNames n) -> listeners d1 !! m = listeners d !! m) /\
              (isName n -> m <> n -> listeners d1 !! m = listeners d !! m)) /\
  (exists d2, Off n l d = Ok (tt, d2) /\
              (m <> n -> listeners d2 !! m = listeners d !! m) /\
              (forall pre x post,
                  elems (listenersAt d n) = pre ++ x :: post ->
                  Pointer x = Pointer l ->
                  Forall (fun y => Pointer y <> Pointer l) pre ->
                  Forall (fun y => Pointer y <> Pointer l) post ->
                  elems (listenersAt d2 n) = pre ++ post)) /\
  (exists d3, OffAll n d = Ok (tt, d3) /\
              (m <> n -> listeners d3 !! m = listeners d !! m)) /\
  (exists b, HasListeners n d = Ok (b, d)).
Proof.
  intros H. split; [|split; [|split]].
  - eexists. split; [apply On_unlocked, H|]. simpl. split.
    + apply registered_all_other.
    + intros Hname Hne. apply registered_all_other. rewrite Hname.
      intros [Heq|[]]. congruence.
  - eexists. split; [apply Off_unlocked, H|]. simpl. split.
    + apply removed_other.
    + intros pre x post. unfold listenersAt. simpl. apply removed_single.
  - eexists. split; [apply OffAll_unlocked, H|]. simpl.
    intros Hne. apply lookup_delete_ne. congruence.
  - eexists. apply HasListeners_value.
Qed.

(* --------------------------------------------------------------------- *)
(** ** The names of [On]                                                  *)
(* --------------------------------------------------------------------- *)


Lemma On_a_tab_b (l : Listener) :
  exists d',
    On a_tab_b l newEventDispatcher = Ok (tt, d') /\
    HasListeners "a" d' = Ok (false, d') /\
    HasListeners "b" d' = Ok (false, d') /\
    elems (listenersAt d' a_tab_b) = [l].
Proof.
  eexists. split; [vm_compute; reflexivity|].
  repeat split; vm_compute; reflexivity.
Qed.

(** C4, as stated, fails: a tab is whitespace and does not separate names.
    "a<TAB>b" is the two names "a" and "b" when read as a
    whitespace-separated list; [On] registers the listener under the one
    name "a<TAB>b" and under neither "a" nor "b". *)
Lemma On_tab_is_part_of_a_name :
  whitespaceFields a_tab_b = ["a"; "b"] /\
  getNames a_tab_b = [a_tab_b] /\
  exists d',
    On a_tab_b (counter 1 "c") newEventDispatcher = Ok (tt, d') /\
    HasListeners "a" d' = Ok (false, d') /\
    HasListeners "b" d' = Ok (false, d') /\
    elems (listenersAt d' a_tab_b) = [counter 1 "c"].
Proof.
  split; [reflexivity|]. split; [reflexivity|].
  apply On_a_tab_b.
Qed.

(** C4, amended. [On names l] cuts [names] at each space (the byte 32, and
    no other whitespace), drops the empty pieces, and appends [l] to the
    end of the sequence of each name that remains, once for each time the
    name occurs; the sequences of the other names stay as they are, and
    when no name remains the dispatcher is unchanged. [On] returns for
    every string. *)
Theorem On_appends_to_each_space_separated_name (d : EventDispatcher)
    (names : string) (l : Listener) :
  unlocked d ->
  exists d',
    On names l d = Ok (tt, d') /\
    unlocked d' /\
    getNames names = List.filter nonEmpty (strings_Split names " "%char) /\
    (forall nm, In nm (getNames names) <->
                nm <> "" /\ In nm (strings_Split names " "%char)) /\
    (forall nm, In nm (getNames names) ->
                exists k, elems (listenersAt d' nm)
                          = elems (listenersAt d nm) ++ l :: repeat l k) /\
    (forall nm, elems (listenersAt d' nm)
                = elems (listenersAt d nm)
                  ++ repeat l (count_occ string_dec (getNames names) nm)) /\
    (forall nm, ~ In nm (getNames names) -> listeners d' !! nm = listeners d !! nm) /\
    (getNames names = [] -> d' = d).
Proof.
  intros H. eexists. split; [apply On_unlocked, H|].
  split; [reflexivity|].
  split; [apply getNames_filter|].
  split.
  { intros nm. rewrite getNames_filter, filter_In. unfold nonEmpty.
    destruct (String.eqb_spec nm ""); simpl; intuition congruence. }
  split.
  { intros nm Hin. unfold listenersAt. simpl.
    rewrite registered_all_elems.
    apply (count_occ_In string_dec) in Hin.
    destruct (count_occ string_dec (getNames names) nm) as [|k]; [lia|].
    exists k. reflexivity. }
  split.
  { intros nm. unfold listenersAt. simpl. apply registered_all_elems. }
  split.
  { intros nm. simpl. apply registered_all_other. }
  intros Hnil. rewrite Hnil. simpl. symmetry. apply dispatcher_unlocked, H.
Qed.

(* --------------------------------------------------------------------- *)
(** ** The registry                                                       *)
(* --------------------------------------------------------------------- *)


Lemma GetDispatcher_string (key : string) (r : Registry) :
  GetDispatcher (IString key) r = Ok (lookedUp key r).
Proof.
  destruct r as [[ds|] h]; unfold GetDispatcher, getDispatcher, lookedUp,
    bind, get, put, ret, NewDispatcher; simpl.
  - destruct (ds !! key); reflexivity.
  - rewrite lookup_empty. reflexivity.
Qed.

Lemma GetDispatcher_nil (r : Registry) :
  GetDispatcher INil r = Ok (lookedUp DefaultDispatcherKey r).
Proof. rewrite <- GetDispatcher_string. reflexivity. Qed.

Lemma GetDispatcher_inv (k : iface) (r r' : Registry) (p : loc) :
  GetDispatcher k r = Ok (p, r') ->
  exists key, (p, r') = lookedUp key r.
Proof.
  destruct k as [|key|z|ty z].
  - rewrite GetDispatcher_nil. intros [= H]. eauto.
  - rewrite GetDispatcher_string. intros [= H]. eauto.
  - unfold GetDispatcher, bind, get, throw.
    destruct (dispatchers r); simpl; discriminate.
  - unfold GetDispatcher, bind, get, throw.
    destruct (dispatchers r); simpl; discriminate.
Qed.

Lemma fresh_unallocated (h : gmap loc EventDispatcher) : h !! fresh (dom h) = None.
Proof. apply not_elem_of_dom, is_fresh. Qed.

Lemma registry_ok_default (r : Registry) :
  registry_ok r <->
  (forall k p, default ∅ (dispatchers r) !! k = Some p -> is_Some (heap r !! p)) /\
  (forall k1 k2 p, default ∅ (dispatchers r) !! k1 = Some p ->
                   default ∅ (dispatchers r) !! k2 = Some p -> k1 = k2).
Proof.
  unfold registry_ok. destruct (dispatchers r) as [ds|]; simpl; split.
  - intros H. apply H. reflexivity.
  - intros H ds' [= <-]. exact H.
  - intros _. split; intros *; rewrite lookup_empty; discriminate.
  - intros _ ds' [=].
Qed.

Lemma lookedUp_ok (key : string) (r : Registry) :
  registry_ok r -> registry_ok (snd (lookedUp key r)).
Proof.
  rewrite !registry_ok_default. intros [Hal Hinj]. unfold lookedUp.
  destruct (default ∅ (dispatchers r) !! key) as [p|] eqn:Hk; simpl.
  - split; assumption.
  - split.
    + intros k p. rewrite lookup_insert. case_decide as Hd.
      * intros [= <-]. rewrite lookup_insert_eq. eauto.
      * intros Hp. destruct (decide (fresh (dom (heap r)) = p)) as [<-|Hne].
        -- rewrite lookup_insert_eq. eauto.
        -- rewrite lookup_insert_ne by assumption. eapply Hal, Hp.
    + intros k1 k2 p. rewrite !lookup_insert.
      repeat case_decide; subst; try congruence.
      * intros [= <-] Hp. apply Hal in Hp as [d Hd].
        rewrite fresh_unallocated in Hd. discriminate.
      * intros Hp [= <-]. apply Hal in Hp as [d Hd].
        rewrite fresh_unallocated in Hd. discriminate.
      * apply Hinj.
Qed.

Lemma reg_step_ok (r r' : Registry) :
  reg_step r r' -> registry_ok r -> registry_ok r'.
Proof.
  intros Hstep Hok. destruct Hstep as [k r r' p Hget|r r' p Hnew|r p d d' Hp].
  - apply GetDispatcher_inv in Hget as [key Hkey].
    pose proof (lookedUp_ok key r Hok) as H. rewrite <- Hkey in H. exact H.
  - injection Hnew as <- <-. intros ds Hds. simpl in *.
    destruct (Hok ds Hds) as [Hal Hinj]. split; [|exact Hinj].
    intros k q Hq. destruct (decide (fresh (dom (heap r)) = q)) as [<-|Hne].
    + rewrite lookup_insert_eq. eauto.
    + rewrite lookup_insert_ne by assumption. eapply Hal, Hq.
  - intros ds Hds. simpl in *.
    destruct (Hok ds Hds) as [Hal Hinj]. split; [|exact Hinj].
    intros k q Hq. destruct (decide (p = q)) as [<-|Hne].
    + rewrite lookup_insert_eq. eauto.
    + rewrite lookup_insert_ne by assumption. eapply Hal, Hq.
Qed.

Lemma reg_steps_ok (r r' : Registry) :
  reg_steps r r' -> registry_ok r -> registry_ok r'.
Proof.
  induction 1 as [r|r r' r'' _ IH Hstep]; intros Hok; [assumption|].
  eapply reg_step_ok; eauto.
Qed.

Lemma reachable_ok (r : Registry) : reachable r -> registry_ok r.
Proof.
  intros H. eapply reg_steps_ok; [exact H|]. intros ds. discriminate.
Qed.

(** A key keeps the pointer it has. *)
Lemma reg_step_keeps (r r' : Registry) (ds : gmap string loc) (key : string) (p : loc) :
  reg_step r r' -> dispatchers r = Some ds -> ds !! key = Some p ->
  exists ds', dispatchers r' = Some ds' /\ ds' !! key = Some p.
Proof.
  intros Hstep Hds Hk. destruct Hstep as [k r r' q Hget|r r' q Hnew|r q d d' Hq].
  - apply GetDispatcher_inv in Hget as [key' Hkey]. unfold lookedUp in Hkey.
    rewrite Hds in Hkey. simpl in Hkey.
    destruct (ds !! key') as [q'|] eqn:Hk'; injection Hkey as -> ->; simpl.
    + eauto.
    + eexists. split; [reflexivity|].
      rewrite lookup_insert_ne; [assumption|]. intros ->. congruence.
  - injection Hnew as <- <-. simpl. eauto.
  - simpl. eauto.
Qed.

Lemma reg_steps_keep (r r' : Registry) (key : string) (p : loc) :
  reg_steps r r' ->
  forall ds, dispatchers r = Some ds -> ds !! key = Some p ->
  exists ds', dispatchers r' = Some ds' /\ ds' !! key = Some p.
Proof.
  induction 1 as [r|r r' r'' _ IH Hstep]; intros ds Hds Hk; [eauto|].
  destruct (IH ds Hds Hk) as (ds' & Hds' & Hk').
  eapply reg_step_keeps; eauto.
Qed.

Lemma lookedUp_stored (key : string) (r : Registry) (ds : gmap string loc) (p : loc) :
  dispatchers r = Some ds -> ds !! key = Some p -> lookedUp key r = (p, r).
Proof.
  intros Hds Hk. unfold lookedUp. rewrite Hds. simpl. rewrite Hk.
  destruct r as [o h]. simpl in *. now subst.
Qed.

Lemma lookedUp_stores (key : string) (r : Registry) :
  exists ds1, dispatchers (snd (lookedUp key r)) = Some ds1 /\
              ds1 !! key = Some (fst (lookedUp key r)).
Proof.
  unfold lookedUp. destruct (default ∅ (dispatchers r) !! key) as [p|] eqn:Hk; simpl.
  - eauto.
  - eexists. split; [reflexivity|]. apply lookup_insert_eq.
Qed.

(** C7. On a registry that the program can reach, and for a key that is
    nil or a string: [GetDispatcher nil] is [GetDispatcher] of the default
    key; the call returns a pointer [p] and stores it under the key; when
    the key was not stored, [p] is the address of a new, empty dispatcher;
    a second call with the same key returns [p] again and changes nothing;
    a call with another key returns another pointer; and whatever the
    program does afterwards, the key keeps [p]. *)
Theorem GetDispatcher_one_instance_per_key (r : Registry) (k : iface) (key : string) :
  reachable r ->
  (k = INil /\ key = DefaultDispatcherKey) \/ k = IString key ->
  exists p r1,
    GetDispatcher k r = Ok (p, r1) /\
    GetDispatcher INil r = GetDispatcher (IString DefaultDispatcherKey) r /\
    (exists ds1, dispatchers r1 = Some ds1 /\ ds1 !! key = Some p) /\
    (default ∅ (dispatchers r) !! key = None ->
     heap r !! p = None /\ heap r1 !! p = Some newEventDispatcher) /\
    (forall q, default ∅ (dispatchers r) !! key = Some q ->
               p = q /\ heap r1 = heap r) /\
    GetDispatcher k r1 = Ok (p, r1) /\
    (forall key' q r2, key' <> key ->
        GetDispatcher (IString key') r1 = Ok (q, r2) -> q <> p) /\
    (forall r', reg_steps r1 r' -> GetDispatcher k r' = Ok (p, r')).
Proof.
  intros Hreach Hk.
  assert (Hget : GetDispatcher k r = Ok (lookedUp key r)).
  { destruct Hk as [[-> ->]| ->];
      [apply GetDispatcher_nil | apply GetDispatcher_string]. }
  assert (Hget' : forall r0, GetDispatcher k r0 = Ok (lookedUp key r0)).
  { intros r0. destruct Hk as [[-> ->]| ->];
      [apply GetDispatcher_nil | apply GetDispatcher_string]. }
  destruct (lookedUp key r) as [p r1] eqn:Hlu.
  destruct (lookedUp_stores key r) as (ds1 & Hds1 & Hp). rewrite Hlu in Hds1, Hp.
  simpl in Hds1, Hp.
  assert (Hok1 : registry_ok r1).
  { pose proof (lookedUp_ok key r (reachable_ok r Hreach)) as H.
    now rewrite Hlu in H. }
  exists p, r1. split; [exact Hget|].
  split; [now rewrite GetDispatcher_nil, GetDispatcher_string|].
  split; [eauto|].
  split.
  { intros Hnone. unfold lookedUp in Hlu. rewrite Hnone in Hlu.
    injection Hlu as <- <-. simpl. split.
    - apply fresh_unallocated.
    - apply lookup_insert_eq. }
  split.
  { intros q Hq. unfold lookedUp in Hlu. rewrite Hq in Hlu.
    injection Hlu as <- <-. simpl. split; reflexivity. }
  split.
  { rewrite Hget'. f_equal. eapply lookedUp_stored; eauto. }
  split.
  { intros key' q r2 Hne. rewrite GetDispatcher_string. intros [= Hq].
    intros ->. apply Hne.
    assert (Hok2 : registry_ok r2).
    { pose proof (lookedUp_ok key' r1 Hok1) as H. now rewrite Hq in H. }
    destruct (lookedUp_stores key' r1) as (ds2 & Hds2 & Hp2).
    rewrite Hq in Hds2, Hp2. simpl in Hds2, Hp2.
    assert (Hstep : reg_step r1 r2).
    { eapply (step_get (IString key')). rewrite GetDispatcher_string, Hq. reflexivity. }
    destruct (reg_step_keeps _ _ _ _ _ Hstep Hds1 Hp) as (ds2' & Hds2' & Hp2').
    rewrite Hds2 in Hds2'. injection Hds2' as <-.
    destruct (Hok2 ds2 Hds2) as [_ Hinj]. eapply Hinj; eauto. }
  intros r' Hsteps.
  destruct (reg_steps_keep _ _ _ _ Hsteps ds1 Hds1 Hp) as (ds' & Hds' & Hp').
  rewrite Hget'. f_equal. eapply lookedUp_stored; eauto.
Qed.

(* --------------------------------------------------------------------- *)
(** ** Dispatch and what the listeners do                                 *)
(* --------------------------------------------------------------------- *)

(** With persistent listeners only, the loop calls the elements of the
    sequence one after the other and leaves the map as it is. *)
Lemma schedule_funcs (nm : string) (ls : gmap string listenersCollection) (k : nat) :
  forall i : nat,
    Forall (fun l => isFunc l = true) (elems (default nilSlice (ls !! nm))) ->
    i + k <= length (elems (default nilSlice (ls !! nm))) ->
    schedule nm k i ls = (take k (drop i (elems (default nilSlice (ls !! nm)))), ls).
Proof.
  induction k as [|k IH]; intros i Hall Hlen; simpl; [reflexivity|].
  unfold backing. rewrite lookup_app_l by lia.
  destruct (elems (default nilSlice (ls !! nm)) !! i) as [l|] eqn:Hl.
  2:{ apply lookup_ge_None in Hl. lia. }
  assert (Hf : isFunc l = true).
  { rewrite Forall_forall in Hall. eapply Hall, list_elem_of_lookup_2, Hl. }
  destruct l as [c body|n l]; [|discriminate]. simpl.
  rewrite IH by (assumption || lia). simpl.
  now rewrite (drop_S _ _ _ Hl).
Qed.

Lemma Dispatch_persistent (d : EventDispatcher) (m : Mem) (cs : list (Listener * loc))
    (e : loc) (ev : ParamsEvent) :
  unlocked d -> events m !! e = Some ev ->
  Forall (fun l => isFunc l = true) (elems (listenersAt d (name ev))) ->
  Dispatch e (mkWorld d m cs)
  = Ok (e, mkWorld d (effects (elems (listenersAt d (name ev))) e m)
             (cs ++ called (elems (listenersAt d (name ev))) e)).
Proof.
  intros H Hev Hall. rewrite (Dispatch_unlocked _ _ _ _ _ H Hev).
  unfold listenersAt in *. rewrite schedule_funcs by (assumption || lia).
  simpl. rewrite drop_0, firstn_all. now rewrite <- (dispatcher_unlocked d H).
Qed.

Lemma wrapInt_add (a b : Z) : wrapInt (wrapInt a + b) = wrapInt (a + b).
Proof.
  unfold wrapInt. f_equal.
  replace ((a + 2 ^ 63) mod 2 ^ 64 - 2 ^ 63 + b + 2 ^ 63)%Z
    with ((a + 2 ^ 63) mod 2 ^ 64 + b)%Z by lia.
  rewrite Zplus_mod_idemp_l. f_equal. lia.
Qed.

Lemma wrapInt_inInt (z : Z) : inInt z -> wrapInt z = z.
Proof.
  unfold inInt, wrapInt. intros H. rewrite Z.mod_small; lia.
Qed.

Lemma inInt_wrapInt (z : Z) : inInt (wrapInt z).
Proof.
  unfold inInt, wrapInt.
  pose proof (Z.mod_pos_bound (z + 2 ^ 63) (2 ^ 64)) as H. lia.
Qed.

(** [k] listeners that each increment the [int] variable [x] add [k] to
    it, with the wrap-around of [int]. *)
Lemma effects_counters (x : string) (e : loc) (ls : list Listener) :
  forall m : Mem,
    Forall (fun l => exists c, l = counter c x) ls ->
    inInt (default 0%Z (vars m !! x)) ->
    default 0%Z (vars (effects ls e m) !! x)
    = wrapInt (default 0 (vars m !! x) + Z.of_nat (length ls))%Z.
Proof.
  induction ls as [|l ls IH]; intros m Hall Hin.
  - cbn [effects fold_left length Z.of_nat]. rewrite Z.add_0_r.
    symmetry. now apply wrapInt_inInt.
  - apply Forall_cons in Hall as [[c ->] Hall].
    unfold effects in *. cbn [fold_left effect counter].
    rewrite (IH _ Hall).
    + unfold increment. cbn [vars]. rewrite lookup_insert_eq. cbn [default].
      unfold id. rewrite wrapInt_add. f_equal. cbn [length]. lia.
    + unfold increment. cbn [vars]. rewrite lookup_insert_eq. cbn [default].
      apply inInt_wrapInt.
Qed.

(** The test of [Dispatch]: [k] persistent listeners that count, one
    dispatch, and the counter, zero before, is [k]. *)
Lemma Dispatch_counts (d : EventDispatcher) (m : Mem) (cs : list (Listener * loc))
    (e : loc) (ev : ParamsEvent) (x : string) :
  unlocked d -> events m !! e = Some ev ->
  Forall (fun l => exists c, l = counter c x) (elems (listenersAt d (name ev))) ->
  vars m !! x = Some 0%Z ->
  (Z.of_nat (length (elems (listenersAt d (name ev)))) < 2 ^ 63)%Z ->
  exists w, Dispatch e (mkWorld d m cs) = Ok (e, w) /\
            default 0%Z (vars (mem w) !! x)
            = Z.of_nat (length (elems (listenersAt d (name ev)))).
Proof.
  intros H Hev Hall Hx Hk. eexists. split.
  - apply Dispatch_persistent; [assumption|eassumption|].
    eapply Forall_impl; [exact Hall|]. intros l [c ->]. reflexivity.
  - cbn [mem]. rewrite effects_counters, Hx; [|assumption|rewrite Hx].
    + cbn [default]. unfold id. apply wrapInt_inInt. unfold inInt. lia.
    + unfold inInt. cbn. lia.
Qed.

(* --------------------------------------------------------------------- *)
(** ** Dispatch and the code of the listeners                             *)
(* --------------------------------------------------------------------- *)

Lemma Pointer_code (l : Listener) : Pointer (code l) = Pointer l.
Proof. destruct l; reflexivity. Qed.

Lemma shiftDown_code (i len0 : nat) (a : list Listener) :
  shiftDown i len0 (code <$> a) = code <$> shiftDown i len0 a.
Proof.
  unfold shiftDown. now rewrite !fmap_app, !fmap_drop, !fmap_take.
Qed.

Lemma scan_code (p : codeptr) (len0 k : nat) :
  forall (i : nat) (a : list Listener),
    scan p len0 k i (code <$> a)
    = (code <$> fst (scan p len0 k i a), snd (scan p len0 k i a)).
Proof.
  induction k as [|k IH]; intros i a; simpl; [reflexivity|].
  rewrite list_lookup_fmap. destruct (a !! i) as [l|]; simpl; [|reflexivity].
  rewrite Pointer_code. destruct (decide (Pointer l = p)); simpl.
  - now rewrite shiftDown_code, IH.
  - apply IH.
Qed.

Lemma codeSlice_default (o : option listenersCollection) :
  default nilSlice (codeSlice <$> o) = codeSlice (default nilSlice o).
Proof. destruct o; reflexivity. Qed.

Lemma backing_codeSlice (s : listenersCollection) :
  backing (codeSlice s) = code <$> backing s.
Proof. unfold backing, codeSlice. simpl. now rewrite fmap_app. Qed.

Lemma sliceOf_code (a : list Listener) (k : nat) :
  sliceOf (code <$> a) k = codeSlice (sliceOf a k).
Proof. unfold sliceOf, codeSlice. simpl. now rewrite fmap_take, fmap_drop. Qed.

Lemma removed_code (n : string) (l l' : Listener)
    (ls : gmap string listenersCollection) :
  Pointer l' = Pointer l ->
  removed n l' (codeSlice <$> ls) = codeSlice <$> removed n l ls.
Proof.
  intros Hp. unfold removed. rewrite Hp, lookup_fmap, codeSlice_default.
  rewrite backing_codeSlice, scan_code. simpl. rewrite length_fmap.
  destruct (snd (scan _ _ _ _ _)); [|reflexivity].
  now rewrite fmap_insert, sliceOf_code.
Qed.

Lemma afterCall_code (l : Listener) :
  forall ls : gmap string listenersCollection,
    afterCall (code l) (codeSlice <$> ls) = codeSlice <$> afterCall l ls.
Proof.
  induction l as [c body|n l IH]; intros ls; simpl; [reflexivity|].
  rewrite IH. now apply removed_code.
Qed.

(** The listeners that the loop calls are found by their code alone. *)
Lemma schedule_code (nm : string) (k : nat) :
  forall (i : nat) (ls : gmap string listenersCollection),
    schedule nm k i (codeSlice <$> ls)
    = (code <$> fst (schedule nm k i ls), codeSlice <$> snd (schedule nm k i ls)).
Proof.
  induction k as [|k IH]; intros i ls; simpl; [reflexivity|].
  rewrite lookup_fmap, codeSlice_default, backing_codeSlice, list_lookup_fmap.
  destruct (backing (default nilSlice (ls !! nm)) !! i) as [l|]; simpl; [|reflexivity].
  now rewrite afterCall_code, IH.
Qed.

Lemma codeCalls_app (cs cs' : list (Listener * loc)) :
  codeCalls (cs ++ cs') = codeCalls cs ++ codeCalls cs'.
Proof. unfold codeCalls. apply fmap_app. Qed.

Lemma codeCalls_called (ls : list Listener) (e : loc) :
  codeCalls (called ls e) = called (code <$> ls) e.
Proof.
  unfold codeCalls, called. induction ls as [|l ls IH]; simpl; [reflexivity|].
  f_equal. exact IH.
Qed.

Lemma codeDisp_listeners (d d2 : EventDispatcher) :
  codeDisp d2 = codeDisp d ->
  RWMutex d2 = RWMutex d /\ codeSlice <$> listeners d2 = codeSlice <$> listeners d.
Proof. unfold codeDisp. intros [= H1 H2]. split; assumption. Qed.

Lemma codeSlice_elems_length (ls ls2 : gmap string listenersCollection) (n : string) :
  codeSlice <$> ls2 = codeSlice <$> ls ->
  length (elems (default nilSlice (ls2 !! n)))
  = length (elems (default nilSlice (ls !! n))).
Proof.
  intros H.
  assert (Hn : default nilSlice ((codeSlice <$> ls2) !! n)
               = default nilSlice ((codeSlice <$> ls) !! n)) by now rewrite H.
  rewrite !lookup_fmap, !codeSlice_default in Hn.
  apply (f_equal (fun s => length (elems s))) in Hn. simpl in Hn.
  now rewrite !length_fmap in Hn.
Qed.

(** X18. [Dispatch] does not read the flag of the event. Take any
    dispatcher and event, once-wrappers included, and a second run that
    differs from the first in its memory, hence in the flag of the event
    at the start, and in what the listeners do to the memory, hence in
    whether one of them stops the propagation: only the code of the
    listeners is the same, and the listeners are functions that return and
    leave the dispatcher alone. Both runs return the event, call listeners
    of the same code in the same order, and leave the same listeners
    behind. And when the listeners of the name are persistent, every one
    of them is called, in order, whatever the ones before it did to the
    event. *)
Theorem Dispatch_ignores_the_flag (d d2 : EventDispatcher) (m m2 : Mem)
    (cs cs2 : list (Listener * loc)) (e : loc) (ev ev2 : ParamsEvent) :
  unlocked d ->
  codeDisp d2 = codeDisp d -> codeCalls cs2 = codeCalls cs ->
  events m !! e = Some ev -> events m2 !! e = Some ev2 -> name ev2 = name ev ->
  exists w w2,
    Dispatch e (mkWorld d m cs) = Ok (e, w) /\
    Dispatch e (mkWorld d2 m2 cs2) = Ok (e, w2) /\
    codeDisp (disp w2) = codeDisp (disp w) /\
    codeCalls (calls w2) = codeCalls (calls w) /\
    (Forall (fun l => isFunc l = true) (elems (listenersAt d (name ev))) ->
     disp w = d /\
     calls w = cs ++ called (elems (listenersAt d (name ev))) e /\
     mem w = effects (elems (listenersAt d (name ev))) e m).
Proof.
  intros H Hd Hcs Hev Hev2 Hname.
  destruct (codeDisp_listeners _ _ Hd) as [Hmu Hls].
  assert (H2 : unlocked d2) by (unfold unlocked in *; congruence).
  eexists _, _.
  split; [apply (Dispatch_unlocked _ _ _ _ _ H Hev)|].
  split; [apply (Dispatch_unlocked _ _ _ _ _ H2 Hev2)|].
  simpl. rewrite Hname. unfold listenersAt.
  rewrite (codeSlice_elems_length _ _ (name ev) Hls).
  set (k := length (elems (default nilSlice (listeners d !! name ev)))).
  pose proof (schedule_code (name ev) k 0 (listeners d)) as Hs.
  pose proof (schedule_code (name ev) k 0 (listeners d2)) as Hs2.
  rewrite Hls, Hs in Hs2. injection Hs2 as Hfst Hsnd.
  split; [unfold codeDisp; simpl; now rewrite Hsnd|].
  split.
  { rewrite !codeCalls_app, !codeCalls_called. now rewrite Hcs, Hfst. }
  intros Hall. subst k.
  rewrite schedule_funcs by (assumption || lia). simpl.
  rewrite drop_0, firstn_all.
  split; [symmetry; apply dispatcher_unlocked, H|]. split; reflexivity.
Qed.

(* --------------------------------------------------------------------- *)
(** ** The statements at the inputs of the tests                          *)
(* --------------------------------------------------------------------- *)


Lemma ParamsEvent_roundtrip_witness :
  events testMem !! 1%positive = Some testEvent /\
  exists m1, SetParam 1%positive "test_key" (IString "test value") testMem
             = Ok (1%positive, m1) /\
             GetParam 1%positive "test_key" m1 = Ok ((IString "test value", true), m1).
Proof.
  split; [reflexivity|].
  apply (ParamsEvent_roundtrip testMem 1%positive testEvent "test_key"
           (IString "test value") TestEventName [CallStopPropagation]).
  reflexivity.
Defined.

Lemma OffAll_erases_the_name_witness :
  unlocked testDispatcher /\
  events testMem !! 1%positive = Some testEvent /\
  name testEvent = TestEventName /\
  exists d',
    OffAll TestEventName testDispatcher = Ok (tt, d') /\
    listeners d' = delete TestEventName (listeners testDispatcher) /\
    listeners d' !! TestEventName = None /\
    (listeners testDispatcher !! TestEventName = None -> d' = testDispatcher) /\
    HasListeners TestEventName d' = Ok (false, d') /\
    Dispatch 1%positive (mkWorld d' testMem []) = Ok (1%positive, mkWorld d' testMem []).
Proof.
  split; [reflexivity|]. split; [reflexivity|]. split; [reflexivity|].
  apply (OffAll_erases_the_name testDispatcher TestEventName testMem [] 1%positive
           testEvent); reflexivity.
Defined.

Lemma HasListeners_iff_registered_witness :
  unlocked newEventDispatcher /\ isName TestEventName /\
  exists d1,
    On TestEventName (counter 1 "c") newEventDispatcher = Ok (tt, d1) /\
    HasListeners TestEventName d1 = Ok (true, d1) /\
    (elems (listenersAt newEventDispatcher TestEventName) = [] ->
     exists d2, Off TestEventName (counter 1 "c") d1 = Ok (tt, d2) /\
                elems (listenersAt d2 TestEventName) = [] /\
                HasListeners TestEventName d2 = Ok (false, d2)).
Proof.
  split; [reflexivity|]. split; [reflexivity|].
  apply (proj2 (proj2 (proj2
           (HasListeners_iff_registered newEventDispatcher TestEventName
              (counter 1 "c"))))); reflexivity.
Defined.

Lemma other_names_keep_their_listeners_witness :
  unlocked testDispatcher /\
  exists d2,
    Off "other" (stopper 1) testDispatcher = Ok (tt, d2) /\
    ("test_event" <> "other" ->
     listeners d2 !! "test_event" = listeners testDispatcher !! "test_event") /\
    (forall pre x post,
        elems (listenersAt testDispatcher "other") = pre ++ x :: post ->
        Pointer x = Pointer (stopper 1) ->
        Forall (fun y => Pointer y <> Pointer (stopper 1)) pre ->
        Forall (fun y => Pointer y <> Pointer (stopper 1)) post ->
        elems (listenersAt d2 "other") = pre ++ post).
Proof.
  split; [reflexivity|].
  apply (other_names_keep_their_listeners testDispatcher "other" "test_event"
           (stopper 1)).
  reflexivity.
Defined.

Lemma On_appends_to_each_space_separated_name_witness :
  unlocked testDispatcher /\
  exists d',
    On "test_event  other" (counter 3 "c") testDispatcher = Ok (tt, d') /\
    unlocked d' /\
    getNames "test_event  other"
    = List.filter nonEmpty (strings_Split "test_event  other" " "%char) /\
    (forall nm, In nm (getNames "test_event  other") <->
                nm <> "" /\ In nm (strings_Split "test_event  other" " "%char)) /\
    (forall nm, In nm (getNames "test_event  other") ->
                exists k, elems (listenersAt d' nm)
                          = elems (listenersAt testDispatcher nm)
                            ++ counter 3 "c" :: repeat (counter 3 "c") k) /\
    (forall nm, elems (listenersAt d' nm)
                = elems (listenersAt testDispatcher nm)
                  ++ repeat (counter 3 "c")
                       (count_occ string_dec (getNames "test_event  other") nm)) /\
    (forall nm, ~ In nm (getNames "test_event  other") ->
                listeners d' !! nm = listeners testDispatcher !! nm) /\
    (getNames "test_event  other" = [] -> d' = testDispatcher).
Proof.
  split; [reflexivity|].
  apply (On_appends_to_each_space_separated_name testDispatcher
           "test_event  other" (counter 3 "c")).
  reflexivity.
Defined.

Lemma GetDispatcher_one_instance_per_key_witness :
  reachable initRegistry /\
  exists p r1,
    GetDispatcher INil initRegistry = Ok (p, r1) /\
    GetDispatcher INil initRegistry
    = GetDispatcher (IString DefaultDispatcherKey) initRegistry /\
    (exists ds1, dispatchers r1 = Some ds1 /\ ds1 !! DefaultDispatcherKey = Some p) /\
    (default ∅ (dispatchers initRegistry) !! DefaultDispatcherKey = None ->
     heap initRegistry !! p = None /\ heap r1 !! p = Some newEventDispatcher) /\
    (forall q, default ∅ (dispatchers initRegistry) !! DefaultDispatcherKey = Some q ->
               p = q /\ heap r1 = heap initRegistry) /\
    GetDispatcher INil r1 = Ok (p, r1) /\
    (forall key' q r2, key' <> DefaultDispatcherKey ->
        GetDispatcher (IString key') r1 = Ok (q, r2) -> q <> p) /\
    (forall r', reg_steps r1 r' -> GetDispatcher INil r' = Ok (p, r')).
Proof.
  split; [apply steps_refl|].
  apply (GetDispatcher_one_instance_per_key initRegistry INil DefaultDispatcherKey).
  - apply steps_refl.
  - left. split; reflexivity.
Defined.

Lemma Dispatch_ignores_the_flag_witness :
  unlocked testDispatcher /\
  codeDisp testDispatcher' = codeDisp testDispatcher /\
  events testMem !! 1%positive = Some testEvent /\
  events testMem' !! 1%positive = Some (mkParamsEvent TestEventName true ∅) /\
  exists w w2,
    Dispatch 1%positive (mkWorld testDispatcher testMem []) = Ok (1%positive, w) /\
    Dispatch 1%positive (mkWorld testDispatcher' testMem' []) = Ok (1%positive, w2) /\
    codeDisp (disp w2) = codeDisp (disp w) /\
    codeCalls (calls w2) = codeCalls (calls w) /\
    (Forall (fun l => isFunc l = true)
       (elems (listenersAt testDispatcher (name testEvent))) ->
     disp w = testDispatcher /\
     calls w = [] ++ called (elems (listenersAt testDispatcher (name testEvent)))
                       1%positive /\
     mem w = effects (elems (listenersAt testDispatcher (name testEvent)))
               1%positive testMem).
Proof.
  split; [reflexivity|]. split; [vm_compute; reflexivity|].
  split; [reflexivity|]. split; [reflexivity|].
  apply (Dispatch_ignores_the_flag testDispatcher testDispatcher' testMem testMem'
           [] [] 1%positive testEvent (mkParamsEvent TestEventName true ∅));
    reflexivity.
Defined.

(** The run of the witness above: the first listener stops the
    propagation, and the second is called all the same. *)
Lemma Dispatch_after_StopPropagation :
  exists w,
    Dispatch 1%positive (mkWorld testDispatcher testMem []) = Ok (1%positive, w) /\
    calls w = [(stopper 1, 1%positive); (counter 2 "c", 1%positive)] /\
    IsPropagationStopped 1%positive (mem w) = Ok (true, mem w) /\
    vars (mem w) !! "c" = Some 1%Z.
Proof.
  eexists. split.
  - apply (Dispatch_persistent testDispatcher testMem [] 1%positive testEvent);
      [reflexivity|reflexivity|].
    repeat constructor.
  - cbn [calls mem]. split; [reflexivity|].
    split; vm_compute; reflexivity.
Qed.

(* ===================================================================== *)
(** * Further properties of the code                                      *)
(* ===================================================================== *)

(* --------------------------------------------------------------------- *)
(** ** [getNames] and the composition of [On]                             *)
(* --------------------------------------------------------------------- *)

(** X1. Every name that [getNames] returns is an event name: it is not empty,
    it has no space, and [getNames] returns it as it is. *)
Theorem getNames_returns_names (n nm : string) :
  In nm (getNames n) ->
  nm <> "" /\ occurs " "%char nm = false /\ getNames nm = [nm].
Proof.
  intros Hin.
  assert (H : nm <> "" /\ occurs " "%char nm = false).
  { rewrite getNames_filter in Hin. apply filter_In in Hin as [Hin Hne]. split.
    - intros ->. discriminate.
    - eapply strings_Split_pieces, Hin. }
  destruct H as [Hne Hsp]. split; [assumption|]. split; [assumption|].
  apply isName_iff. split; assumption.
Qed.

Lemma getNames_returns_names_witness :
  In "b" (getNames " a  b ") /\
  "b" <> "" /\ occurs " "%char "b" = false /\ getNames "b" = ["b"].
Proof.
  split; [right; left; reflexivity|].
  apply (getNames_returns_names " a  b " "b"). right. left. reflexivity.
Defined.

Lemma strings_Split_app (a b : string) (sep : ascii) :
  strings_Split (String.append a (String sep b)) sep
  = strings_Split a sep ++ strings_Split b sep.
Proof.
  induction a as [|c a IH]; simpl.
  - now rewrite Ascii.eqb_refl.
  - destruct (Ascii.eqb c sep); [now rewrite IH|].
    rewrite IH. destruct (strings_Split a sep) as [|p ps] eqn:Hsp.
    + now apply strings_Split_not_nil in Hsp.
    + reflexivity.
Qed.

Lemma for_each_app {S A : Type} (f : A -> M S unit) (xs ys : list A) (s : S) :
  for_each f (xs ++ ys) s = (for_each f xs ;;; for_each f ys) s.
Proof.
  revert s. induction xs as [|x xs IH]; intros s; simpl; [reflexivity|].
  unfold bind. destruct (f x s) as [[[] s']| |]; [|reflexivity|reflexivity].
  apply IH.
Qed.

(** X2. The names of two lists joined by a space are the names of the first
    followed by the names of the second, and [On] with the joined list is
    [On] with the first and then [On] with the second, in every state of
    the dispatcher. *)
Theorem On_of_joined_names (a b : string) (l : Listener) (d : EventDispatcher) :
  getNames (String.append a (String " " b)) = getNames a ++ getNames b /\
  On (String.append a (String " " b)) l d = (On a l ;;; On b l) d.
Proof.
  assert (H : getNames (String.append a (String " " b)) = getNames a ++ getNames b).
  { rewrite !getNames_filter, strings_Split_app. apply List.filter_app. }
  split; [exact H|].
  unfold On. rewrite H. apply for_each_app.
Qed.

(* --------------------------------------------------------------------- *)
(** ** [Off]                                                              *)
(* --------------------------------------------------------------------- *)

(** X3. [Off n l] returns the dispatcher as it was when no entry under [n] has
    the pointer of [l]; in particular when [n] is not a key, and then the
    key is not created. *)
Theorem Off_without_match (d : EventDispatcher) (n : string) (l : Listener) :
  unlocked d ->
  Forall (fun x => Pointer x <> Pointer l) (elems (listenersAt d n)) ->
  Off n l d = Ok (tt, d).
Proof.
  intros H Hall. rewrite (Off_unlocked _ _ _ H).
  rewrite removed_no_match by exact Hall.
  now rewrite <- (dispatcher_unlocked d H).
Qed.

Lemma Off_without_match_witness :
  unlocked testDispatcher /\
  Forall (fun x => Pointer x <> Pointer (counter 7 "c"))
    (elems (listenersAt testDispatcher TestEventName)) /\
  Off TestEventName (counter 7 "c") testDispatcher = Ok (tt, testDispatcher).
Proof.
  assert (Hall : Forall (fun x => Pointer x <> Pointer (counter 7 "c"))
                   (elems (listenersAt testDispatcher TestEventName))).
  { repeat constructor; discriminate. }
  split; [reflexivity|]. split; [exact Hall|].
  apply (Off_without_match testDispatcher TestEventName (counter 7 "c"));
    [reflexivity|exact Hall].
Defined.

Lemma take_shiftDown (i j len0 : nat) (a : list Listener) :
  i <= j -> j <= length a -> take i (shiftDown j len0 a) = take i a.
Proof.
  intros Hij Hj. unfold shiftDown.
  rewrite take_app_le by (rewrite length_take; lia).
  rewrite take_take. f_equal. lia.
Qed.

Lemma take_scan (p : codeptr) (len0 k : nat) :
  forall (i j : nat) (a : list Listener),
    i <= j -> j + k = len0 -> len0 <= length a ->
    take i (fst (scan p len0 k j a)) = take i a.
Proof.
  induction k as [|k IH]; intros i j a Hij Hjk Hlen; simpl; [reflexivity|].
  destruct (a !! j) as [l|]; [|reflexivity].
  destruct (decide (Pointer l = p)); simpl.
  - rewrite IH by (rewrite ?length_shiftDown; lia).
    apply take_shiftDown; lia.
  - apply IH; lia.
Qed.

(** X4. When an entry under [n] has the pointer of [l], [Off n l] takes
    the first such entry out: the entries before it stay, the entry that
    followed it stands in its place, and the sequence is one entry
    shorter, however many of its entries have that pointer. When no entry
    after the first such entry has the pointer, the sequence is the one
    before without that entry. *)
Theorem Off_shortens_by_one (d : EventDispatcher) (n : string) (l x : Listener)
    (pre post : list Listener) :
  unlocked d ->
  elems (listenersAt d n) = pre ++ x :: post ->
  Forall (fun y => Pointer y <> Pointer l) pre ->
  Pointer x = Pointer l ->
  exists d',
    Off n l d = Ok (tt, d') /\
    length (elems (listenersAt d' n)) = length pre + length post /\
    take (length pre) (elems (listenersAt d' n)) = pre /\
    elems (listenersAt d' n) !! length pre = post !! 0 /\
    (Forall (fun y => Pointer y <> Pointer l) post ->
     elems (listenersAt d' n) = pre ++ post).
Proof.
  intros H He Hpre Hx. eexists. split; [apply Off_unlocked, H|].
  unfold listenersAt in *. cbn [listeners].
  assert (Hexact : Forall (fun y => Pointer y <> Pointer l) post ->
                   elems (default nilSlice (removed n l (listeners d) !! n))
                   = pre ++ post).
  { intros Hpost. now apply (removed_single n l x pre post). }
  revert Hexact. unfold removed.
  set (s := default nilSlice (listeners d !! n)) in *.
  assert (Ha : backing s = pre ++ x :: post ++ spare s).
  { unfold backing. rewrite He, <- app_assoc. reflexivity. }
  assert (Hlen : length (elems s) = length pre + S (length post)).
  { rewrite He, length_app. simpl. lia. }
  assert (Hla : length pre + S (length post) <= length (backing s)).
  { unfold backing. rewrite length_app. lia. }
  rewrite Hlen.
  rewrite !(scan_skip _ _ (S (length post)) (length pre) 0);
    [ | intros j y Hj Hy; rewrite Ha, lookup_app_l in Hy by lia;
        rewrite Forall_forall in Hpre; apply Hpre;
        eapply list_elem_of_lookup_2, Hy
      | lia ].
  cbn [Nat.add scan].
  assert (Hat : backing s !! length pre = Some x).
  { rewrite Ha. now apply list_lookup_middle. }
  rewrite Hat, decide_True by assumption.
  cbn [fst snd]. rewrite lookup_insert_eq. cbn [default]. unfold id, sliceOf.
  cbn [elems].
  set (a' := fst (scan _ _ _ _ _)).
  assert (Hl' : length a' = length (backing s)).
  { unfold a'. rewrite length_scan; rewrite ?length_shiftDown; lia. }
  assert (Htake : take (S (length pre)) a'
                  = take (S (length pre))
                      (shiftDown (length pre) (length pre + S (length post)) (backing s))).
  { unfold a'. apply take_scan; rewrite ?length_shiftDown; lia. }
  intros Hexact.
  split; [rewrite length_take; lia|].
  split.
  { rewrite take_take.
    replace (length pre `min` (length pre + S (length post) - 1))
      with (length pre) by lia.
    unfold a'. rewrite take_scan by (rewrite ?length_shiftDown; lia).
    rewrite take_shiftDown by lia.
    rewrite Ha. now rewrite take_app_length. }
  split; [|exact Hexact].
  destruct post as [|y post'].
  - cbn [length] in *. apply lookup_ge_None. rewrite length_take. lia.
  - cbn [length] in *. cbn [lookup list_lookup].
    rewrite lookup_take_lt by lia.
    rewrite <- (lookup_take_lt a' (S (length pre)) (length pre)) by lia.
    rewrite Htake, lookup_take_lt by lia.
    rewrite Ha.
    replace (length pre + S (S (length post')))
      with (length pre + S (length (y :: post'))) by (cbn [length]; lia).
    rewrite shiftDown_at. rewrite lookup_app_r by lia.
    now rewrite Nat.sub_diag.
Qed.

Lemma Off_shortens_by_one_witness :
  unlocked fourListeners /\
  elems (listenersAt fourListeners TestEventName)
  = [] ++ counter 1 "a" :: [counter 2 "b"; counter 1 "c"; counter 3 "d"] /\
  exists d',
    Off TestEventName (counter 1 "other") fourListeners = Ok (tt, d') /\
    length (elems (listenersAt d' TestEventName)) = 0 + 3 /\
    take 0 (elems (listenersAt d' TestEventName)) = [] /\
    elems (listenersAt d' TestEventName) !! 0 = Some (counter 2 "b") /\
    (Forall (fun y => Pointer y <> Pointer (counter 1 "other"))
       [counter 2 "b"; counter 1 "c"; counter 3 "d"] ->
     elems (listenersAt d' TestEventName)
     = [] ++ [counter 2 "b"; counter 1 "c"; counter 3 "d"]).
Proof.
  split; [reflexivity|]. split; [reflexivity|].
  apply (Off_shortens_by_one fourListeners TestEventName (counter 1 "other")
           (counter 1 "a") [] [counter 2 "b"; counter 1 "c"; counter 3 "d"]).
  - reflexivity.
  - reflexivity.
  - constructor.
  - reflexivity.
Defined.

(** X5. [Off] finds its entries by the code pointer alone, so it cannot tell
    two closures of one function apart: registered under a name that had
    no listener, a closure is removed by [Off] with any other closure of
    the same code. *)
Theorem Off_with_another_closure (d : EventDispatcher) (n : string) (c : nat)
    (body body' : loc -> Mem -> Mem) :
  unlocked d -> isName n -> elems (listenersAt d n) = [] ->
  exists d1 d2,
    On n (Func c body) d = Ok (tt, d1) /\
    elems (listenersAt d1 n) = [Func c body] /\
    Off n (Func c body') d1 = Ok (tt, d2) /\
    elems (listenersAt d2 n) = [].
Proof.
  intros H Hname Hempty. eexists _, _.
  split; [apply On_unlocked, H|].
  rewrite Hname. cbn [fold_left].
  assert (He : elems (listenersAt
                 (mkDispatcher unlockedMutex (registered (Func c body) (listeners d) n)) n)
               = [Func c body]).
  { unfold listenersAt in *. cbn [listeners].
    rewrite registered_elems, decide_True by reflexivity. now rewrite Hempty. }
  split; [exact He|].
  split; [apply Off_unlocked; reflexivity|].
  unfold listenersAt in *. cbn [listeners] in *.
  apply (removed_single n (Func c body') (Func c body) [] []);
    [exact He|reflexivity|constructor|constructor].
Qed.

Lemma Off_with_another_closure_witness :
  unlocked newEventDispatcher /\ isName TestEventName /\
  exists d1 d2,
    On TestEventName (counter 1 "c") newEventDispatcher = Ok (tt, d1) /\
    elems (listenersAt d1 TestEventName) = [counter 1 "c"] /\
    Off TestEventName (counter 1 "other") d1 = Ok (tt, d2) /\
    elems (listenersAt d2 TestEventName) = [].
Proof.
  split; [reflexivity|]. split; [reflexivity|].
  apply (Off_with_another_closure newEventDispatcher TestEventName 1
           (increment "c") (increment "other")); reflexivity.
Defined.

(* --------------------------------------------------------------------- *)
(** ** Keys of the map, and the lock                                      *)
(* --------------------------------------------------------------------- *)

Lemma scan_hit_nonempty (p : codeptr) (len0 k i : nat) (a : list Listener) :
  snd (scan p len0 k i a) = true -> k <> 0.
Proof. destruct k; simpl; [discriminate|]. intros _. discriminate. Qed.

(** [Off] neither creates nor erases a key of the map. *)
Lemma removed_keys (n m : string) (l : Listener)
    (ls : gmap string listenersCollection) :
  is_Some (removed n l ls !! m) <-> is_Some (ls !! m).
Proof.
  destruct (decide (m = n)) as [->|Hne].
  2:{ now rewrite removed_other. }
  unfold removed. destruct (snd _) eqn:Hhit; [|reflexivity].
  rewrite lookup_insert_eq. split; [|eauto]. intros _.
  apply scan_hit_nonempty in Hhit.
  destruct (ls !! n); [eauto|]. simpl in Hhit. congruence.
Qed.

(** X6. [Off], whatever it removes, leaves the keys of the map as they
    are: for every dispatcher, name and listener, a name is a key after
    [Off] exactly when it was one before. [On n l] followed by [OffAll n]
    gives back the dispatcher as it was when [n] was not a key. [On n l]
    followed by [Off n l] does not: the key [n] stays in the map, with the
    empty sequence. *)
Theorem On_then_OffAll_restores (d : EventDispatcher) (n n' m : string)
    (l l' : Listener) :
  unlocked d ->
  (exists d3, Off n' l' d = Ok (tt, d3) /\
              (is_Some (listeners d3 !! m) <-> is_Some (listeners d !! m))) /\
  (isName n -> listeners d !! n = None ->
   exists d1 d2,
     On n l d = Ok (tt, d1) /\
     OffAll n d1 = Ok (tt, d) /\
     Off n l d1 = Ok (tt, d2) /\
     (exists s, listeners d2 !! n = Some s /\ elems s = [])).
Proof.
  intros H. split.
  { eexists. split; [apply Off_unlocked, H|]. cbn [listeners]. apply removed_keys. }
  intros Hname Hnone. eexists _, _.
  split; [apply On_unlocked, H|].
  rewrite Hname. cbn [fold_left].
  split.
  { rewrite OffAll_unlocked by reflexivity. cbn [listeners]. unfold registered.
    rewrite delete_insert_eq, delete_id by assumption.
    now rewrite <- (dispatcher_unlocked d H). }
  split; [apply Off_unlocked; reflexivity|].
  cbn [listeners].
  assert (Hs : is_Some (removed n l (registered l (listeners d) n) !! n)).
  { apply removed_keys. unfold registered. rewrite lookup_insert_eq. eauto. }
  destruct Hs as [s Hs]. exists s. split; [exact Hs|].
  pose proof (removed_single n l l [] [] (registered l (listeners d) n)) as He.
  rewrite Hs in He. apply He; [|reflexivity|constructor|constructor].
  rewrite registered_elems, decide_True by reflexivity. now rewrite Hnone.
Qed.

Lemma On_then_OffAll_restores_witness :
  unlocked testDispatcher /\ isName "other" /\
  listeners testDispatcher !! "other" = None /\
  (exists d3, Off TestEventName (counter 2 "x") testDispatcher = Ok (tt, d3) /\
              (is_Some (listeners d3 !! TestEventName)
               <-> is_Some (listeners testDispatcher !! TestEventName))) /\
  exists d1 d2,
    On "other" (counter 3 "c") testDispatcher = Ok (tt, d1) /\
    OffAll "other" d1 = Ok (tt, testDispatcher) /\
    Off "other" (counter 3 "c") d1 = Ok (tt, d2) /\
    (exists s, listeners d2 !! "other" = Some s /\ elems s = []).
Proof.
  split; [reflexivity|]. split; [reflexivity|]. split; [reflexivity|].
  destruct (On_then_OffAll_restores testDispatcher "other" TestEventName TestEventName
              (counter 3 "c") (counter 2 "x") eq_refl) as [Hkeys Hround].
  split; [exact Hkeys|]. apply Hround; reflexivity.
Defined.

Lemma Lock_blocks (d : EventDispatcher) : ~ unlocked d -> Lock d = Blocked.
Proof.
  destruct d as [[r w] ls]. unfold unlocked, Lock, onMutex, mLock. simpl.
  destruct w; [reflexivity|]. destruct r; [|reflexivity].
  intros H. now contradiction H.
Qed.

(** X7. The methods that write to the map wait for the lock: called while the
    dispatcher is locked, as from a listener that [Dispatch] is running,
    [Off], [OffAll], and [On] and [Once] with at least one name, never
    return. *)
Theorem writers_wait_for_the_lock (d : EventDispatcher) (n : string) (l : Listener) :
  ~ unlocked d ->
  Off n l d = Blocked /\
  OffAll n d = Blocked /\
  (getNames n <> [] -> On n l d = Blocked /\ Once n l d = Blocked).
Proof.
  intros H. pose proof (Lock_blocks d H) as HL.
  split; [unfold Off, bind; now rewrite HL|].
  split; [unfold OffAll, bind; now rewrite HL|].
  intros Hne. unfold On, Once.
  destruct (getNames n) as [|x xs]; [contradiction|].
  cbn [for_each]. unfold on, bind. rewrite HL. split; reflexivity.
Qed.

Lemma writers_wait_for_the_lock_witness :
  ~ unlocked (mkDispatcher readingMutex ∅) /\
  Off TestEventName (counter 1 "c") (mkDispatcher readingMutex ∅) = Blocked /\
  OffAll TestEventName (mkDispatcher readingMutex ∅) = Blocked /\
  (getNames TestEventName <> [] ->
   On TestEventName (counter 1 "c") (mkDispatcher readingMutex ∅) = Blocked /\
   Once TestEventName (counter 1 "c") (mkDispatcher readingMutex ∅) = Blocked).
Proof.
  assert (H : ~ unlocked (mkDispatcher readingMutex ∅)) by discriminate.
  split; [exact H|].
  apply (writers_wait_for_the_lock (mkDispatcher readingMutex ∅) TestEventName
           (counter 1 "c") H).
Defined.

(* --------------------------------------------------------------------- *)
(** ** [Once]                                                             *)
(* --------------------------------------------------------------------- *)

Lemma registered_under (n : string) (l : Listener) (names : list string) :
  forall ls : gmap string listenersCollection,
    elems (default nilSlice
             (fold_left (fun ls name => registered (OnceFunc name l) ls n) names ls !! n))
    = elems (default nilSlice (ls !! n)) ++ map (fun name => OnceFunc name l) names /\
    (forall m, m <> n ->
       fold_left (fun ls name => registered (OnceFunc name l) ls n) names ls !! m
       = ls !! m).
Proof.
  induction names as [|x xs IH]; intros ls; cbn [fold_left map].
  - rewrite app_nil_r. split; reflexivity.
  - destruct (IH (registered (OnceFunc x l) ls n)) as [He Ho]. split.
    + rewrite He, registered_elems, decide_True by reflexivity.
      now rewrite <- app_assoc.
    + intros m Hm. rewrite Ho by assumption. unfold registered.
      apply lookup_insert_ne. congruence.
Qed.

(** X8. [Once n l] makes one wrapper for each name of [n], and appends every
    one of them to the sequence of the key [n], the string it was given:
    the wrapper made for a name removes itself from that name, and is
    registered under [n]. The other keys of the map are not touched. *)
Theorem Once_registers_under_the_string (d : EventDispatcher) (n : string)
    (l : Listener) :
  unlocked d ->
  exists d',
    Once n l d = Ok (tt, d') /\
    unlocked d' /\
    elems (listenersAt d' n)
    = elems (listenersAt d n) ++ map (fun name => executeRemove name l) (getNames n) /\
    (forall m, m <> n -> listeners d' !! m = listeners d !! m).
Proof.
  intros H. eexists. split; [apply Once_unlocked, H|].
  split; [reflexivity|].
  unfold listenersAt. cbn [listeners]. apply registered_under.
Qed.

Lemma Once_registers_under_the_string_witness :
  unlocked newEventDispatcher /\
  exists d',
    Once "a b" (counter 1 "c") newEventDispatcher = Ok (tt, d') /\
    unlocked d' /\
    elems (listenersAt d' "a b")
    = elems (listenersAt newEventDispatcher "a b")
      ++ map (fun name => executeRemove name (counter 1 "c")) (getNames "a b") /\
    (forall m, m <> "a b" -> listeners d' !! m = listeners newEventDispatcher !! m).
Proof.
  split; [reflexivity|].
  apply (Once_registers_under_the_string newEventDispatcher "a b" (counter 1 "c")).
  reflexivity.
Defined.

(** X9. A function of the caller registered with [Once] under an event name
    that has no listener: [HasListeners] is true; the first [Dispatch] of
    an event of that name calls the wrapper, which runs the function once
    and removes itself, so that [HasListeners] is false; a second
    [Dispatch] calls nothing and changes nothing. *)
Theorem Once_alone_runs_once (d : EventDispatcher) (n : string) (c : nat)
    (body : loc -> Mem -> Mem) (m : Mem) (cs : list (Listener * loc))
    (e : loc) (ev ev' : ParamsEvent) :
  unlocked d -> isName n -> elems (listenersAt d n) = [] ->
  events m !! e = Some ev -> name ev = n ->
  events (body e m) !! e = Some ev' -> name ev' = n ->
  exists d1 w1,
    Once n (Func c body) d = Ok (tt, d1) /\
    HasListeners n d1 = Ok (true, d1) /\
    Dispatch e (mkWorld d1 m cs) = Ok (e, w1) /\
    mem w1 = body e m /\
    calls w1 = cs ++ [(OnceFunc n (Func c body), e)] /\
    HasListeners n (disp w1) = Ok (false, disp w1) /\
    Dispatch e w1 = Ok (e, w1).
Proof.
  intros H Hname Hempty Hev Hn Hev' Hn'. unfold listenersAt in Hempty.
  set (W := OnceFunc n (Func c body)).
  set (ls1 := registered W (listeners d) n).
  assert (Hs1 : default nilSlice (ls1 !! n)
                = mkSlice [W] (tail (spare (default nilSlice (listeners d !! n))))).
  { unfold ls1, registered. rewrite lookup_insert_eq.
    unfold append1. rewrite Hempty. reflexivity. }
  assert (Hrem : elems (default nilSlice (removed n W ls1 !! n)) = []).
  { apply (removed_single n W W [] []);
      [now rewrite Hs1|reflexivity|constructor|constructor]. }
  assert (Hsched : schedule n 1 0 ls1 = ([W], removed n W ls1)).
  { cbn [schedule]. rewrite Hs1. reflexivity. }
  exists (mkDispatcher unlockedMutex ls1).
  exists (mkWorld (mkDispatcher unlockedMutex (removed n W ls1)) (body e m)
            (cs ++ [(W, e)])).
  split.
  { rewrite (Once_unlocked _ _ _ H), Hname. reflexivity. }
  split.
  { rewrite HasListeners_value. unfold listenersAt. cbn [listeners].
    now rewrite Hs1. }
  split.
  { rewrite (Dispatch_unlocked (mkDispatcher unlockedMutex ls1) m cs e ev eq_refl Hev).
    rewrite Hn. unfold listenersAt. cbn [listeners]. rewrite Hs1.
    cbn [elems length]. rewrite Hsched. reflexivity. }
  split; [reflexivity|]. split; [reflexivity|].
  split.
  { rewrite HasListeners_value. unfold listenersAt. cbn [disp listeners].
    now rewrite Hrem. }
  rewrite (Dispatch_unlocked (mkDispatcher unlockedMutex (removed n W ls1))
             (body e m) (cs ++ [(W, e)]) e ev' eq_refl Hev').
  rewrite Hn'. unfold listenersAt. cbn [listeners]. rewrite Hrem.
  cbn [length schedule fst snd effects fold_left called map].
  now rewrite app_nil_r.
Qed.

Lemma Once_alone_runs_once_witness :
  unlocked newEventDispatcher /\ isName TestEventName /\
  events testMem !! 1%positive = Some testEvent /\
  exists d1 w1,
    Once TestEventName (Func 1 (increment "c")) newEventDispatcher = Ok (tt, d1) /\
    HasListeners TestEventName d1 = Ok (true, d1) /\
    Dispatch 1%positive (mkWorld d1 testMem []) = Ok (1%positive, w1) /\
    mem w1 = increment "c" 1%positive testMem /\
    calls w1 = [] ++ [(OnceFunc TestEventName (Func 1 (increment "c")), 1%positive)] /\
    HasListeners TestEventName (disp w1) = Ok (false, disp w1) /\
    Dispatch 1%positive w1 = Ok (1%positive, w1).
Proof.
  split; [reflexivity|]. split; [reflexivity|]. split; [reflexivity|].
  apply (Once_alone_runs_once newEventDispatcher TestEventName 1 (increment "c")
           testMem [] 1%positive testEvent testEvent); reflexivity.
Defined.

(* --------------------------------------------------------------------- *)
(** ** [Dispatch]                                                         *)
(* --------------------------------------------------------------------- *)

Lemma length_elems_removed (n m : string) (l : Listener)
    (ls : gmap string listenersCollection) :
  length (elems (default nilSlice (removed n l ls !! m)))
  <= length (elems (default nilSlice (ls !! m))).
Proof.
  destruct (decide (m = n)) as [->|Hne].
  2:{ now rewrite removed_other. }
  unfold removed. destruct (snd _) eqn:Hhit; [|reflexivity].
  rewrite lookup_insert_eq. cbn [default]. unfold id, sliceOf. cbn [elems].
  rewrite length_take. lia.
Qed.

Lemma afterCall_keeps (l : Listener) (m : string) :
  forall ls : gmap string listenersCollection,
    (is_Some (afterCall l ls !! m) <-> is_Some (ls !! m)) /\
    length (elems (default nilSlice (afterCall l ls !! m)))
    <= length (elems (default nilSlice (ls !! m))).
Proof.
  induction l as [c body|n l IH]; intros ls; cbn [afterCall].
  - split; [reflexivity|lia].
  - destruct (IH ls) as [Hk Hl]. split.
    + now rewrite removed_keys.
    + etransitivity; [apply length_elems_removed|exact Hl].
Qed.

Lemma schedule_keeps (nm m : string) (k : nat) :
  forall (i : nat) (ls : gmap string listenersCollection),
    i + k <= length (backing (default nilSlice (ls !! nm))) ->
    length (fst (schedule nm k i ls)) = k /\
    (is_Some (snd (schedule nm k i ls) !! m) <-> is_Some (ls !! m)) /\
    length (elems (default nilSlice (snd (schedule nm k i ls) !! m)))
    <= length (elems (default nilSlice (ls !! m))).
Proof.
  induction k as [|k IH]; intros i ls Hlen; cbn [schedule].
  - cbn [fst snd length]. split; [reflexivity|]. split; [reflexivity|lia].
  - destruct (backing (default nilSlice (ls !! nm)) !! i) as [l|] eqn:Hl.
    2:{ apply lookup_ge_None in Hl. lia. }
    cbn [fst snd length].
    destruct (IH (S i) (afterCall l ls)) as (Hn & Hk & Hle).
    { rewrite length_backing_afterCall. lia. }
    destruct (afterCall_keeps l m ls) as [Hk' Hle'].
    split; [now rewrite Hn|]. split; [now rewrite Hk|lia].
Qed.

(** X10. The lock protocol of [Dispatch] and of the once-wrapper. With
    listeners that return and leave the dispatcher alone (the caller's
    functions of this model) and once-wrappers of them, [Dispatch] on a
    dispatcher that nobody holds, with an event that exists, returns, and
    returns the pointer it was given: the wrapper's release of the read
    lock, its [Off] and its taking the read lock again neither block nor
    fail. The lock is free afterwards. The loop makes as many calls as the
    sequence of the name had entries when it started. No key is added to
    the map or erased from it, and no sequence gets longer. *)
Theorem Dispatch_returns (d : EventDispatcher) (m : Mem) (cs : list (Listener * loc))
    (e : loc) (ev : ParamsEvent) (k : string) :
  unlocked d -> events m !! e = Some ev ->
  exists w,
    Dispatch e (mkWorld d m cs) = Ok (e, w) /\
    unlocked (disp w) /\
    length (calls w) = length cs + length (elems (listenersAt d (name ev))) /\
    (is_Some (listeners (disp w) !! k) <-> is_Some (listeners d !! k)) /\
    length (elems (listenersAt (disp w) k)) <= length (elems (listenersAt d k)).
Proof.
  intros H Hev. eexists. split; [apply (Dispatch_unlocked _ _ _ _ _ H Hev)|].
  cbn [disp calls]. split; [reflexivity|].
  unfold listenersAt. cbn [listeners].
  destruct (schedule_keeps (name ev) k
              (length (elems (default nilSlice (listeners d !! name ev)))) 0
              (listeners d)) as (Hn & Hk & Hle).
  { unfold backing. rewrite length_app. lia. }
  split; [|split; assumption].
  unfold called. rewrite length_app, length_map. now rewrite Hn.
Qed.

Lemma Dispatch_returns_witness :
  unlocked onceDispatcher /\ events testMem !! 1%positive = Some testEvent /\
  exists w,
    Dispatch 1%positive (mkWorld onceDispatcher testMem []) = Ok (1%positive, w) /\
    unlocked (disp w) /\
    length (calls w)
    = length (@nil (Listener * loc))
      + length (elems (listenersAt onceDispatcher (name testEvent))) /\
    (is_Some (listeners (disp w) !! TestEventName)
     <-> is_Some (listeners onceDispatcher !! TestEventName)) /\
    length (elems (listenersAt (disp w) TestEventName))
    <= length (elems (listenersAt onceDispatcher TestEventName)).
Proof.
  split; [reflexivity|]. split; [reflexivity|].
  apply (Dispatch_returns onceDispatcher testMem [] 1%positive testEvent
           TestEventName);
    reflexivity.
Defined.

(** X11. [Dispatch] with a pointer that points to no event panics, at the call
    of [e.Name()], whatever is registered. *)
Theorem Dispatch_of_no_event (d : EventDispatcher) (m : Mem)
    (cs : list (Listener * loc)) (e : loc) :
  unlocked d -> events m !! e = None ->
  Dispatch e (mkWorld d m cs) = Fatal.
Proof.
  intros H Hev. rewrite (dispatcher_unlocked d H).
  unfold Dispatch, bind at 1. cbn.
  unfold dispatch, bind at 1. unfold onMem, Name, bind, deref. cbn.
  now rewrite Hev.
Qed.

Lemma Dispatch_of_no_event_witness :
  unlocked testDispatcher /\ events testMem !! 2%positive = None /\
  Dispatch 2%positive (mkWorld testDispatcher testMem []) = Fatal.
Proof.
  split; [reflexivity|]. split; [reflexivity|].
  apply (Dispatch_of_no_event testDispatcher testMem [] 2%positive); reflexivity.
Defined.

(** X12. When the listeners of the event's name are all functions of the
    caller (functions that return and leave the dispatcher alone, as every
    [Func] is), [Dispatch] calls each of them once, in the order of the
    sequence and with the pointer it was given; its own steps, the read
    lock taken and released and the loop over the sequence, leave the
    dispatcher as it was; the memory is what the listeners, run in that
    order, make of it. With [k] listeners that each increment one [int]
    variable, the variable ends at its value plus [k], wrapped to an
    [int]: at that sum itself when the sum is below [2^63]. *)
Theorem Dispatch_calls_each_function_once (d : EventDispatcher) (m : Mem)
    (cs : list (Listener * loc)) (e : loc) (ev : ParamsEvent) (x : string) :
  unlocked d -> events m !! e = Some ev ->
  Forall (fun l => isFunc l = true) (elems (listenersAt d (name ev))) ->
  exists w,
    Dispatch e (mkWorld d m cs) = Ok (e, w) /\
    disp w = d /\
    calls w = cs ++ map (fun l => (l, e)) (elems (listenersAt d (name ev))) /\
    mem w = fold_left (fun m l => effect l e m) (elems (listenersAt d (name ev))) m /\
    (Forall (fun l => exists c, l = counter c x) (elems (listenersAt d (name ev))) ->
     inInt (default 0%Z (vars m !! x)) ->
     default 0%Z (vars (mem w) !! x)
     = wrapInt (default 0 (vars m !! x)
                + Z.of_nat (length (elems (listenersAt d (name ev)))))%Z /\
     ((default 0 (vars m !! x)
       + Z.of_nat (length (elems (listenersAt d (name ev)))) < 2 ^ 63)%Z ->
      default 0%Z (vars (mem w) !! x)
      = (default 0 (vars m !! x)
         + Z.of_nat (length (elems (listenersAt d (name ev)))))%Z)).
Proof.
  intros H Hev Hall. eexists.
  split; [apply (Dispatch_persistent _ _ _ _ _ H Hev Hall)|].
  cbn [disp calls mem]. repeat split.
  - now apply effects_counters.
  - intros Hlt. rewrite effects_counters by assumption.
    apply wrapInt_inInt. unfold inInt in *. lia.
Qed.

Lemma Dispatch_calls_each_function_once_witness :
  unlocked countingDispatcher /\ events testMem !! 1%positive = Some testEvent /\
  Forall (fun l => isFunc l = true)
    (elems (listenersAt countingDispatcher (name testEvent))) /\
  Forall (fun l => exists c, l = counter c "c")
    (elems (listenersAt countingDispatcher (name testEvent))) /\
  inInt (default 0%Z (vars testMem !! "c")) /\
  exists w,
    Dispatch 1%positive (mkWorld countingDispatcher testMem []) = Ok (1%positive, w) /\
    disp w = countingDispatcher /\
    length (calls w) = 5 /\
    default 0%Z (vars (mem w) !! "c") = 5%Z.
Proof.
  assert (Hall : Forall (fun l => isFunc l = true)
                   (elems (listenersAt countingDispatcher (name testEvent))))
    by (repeat constructor).
  assert (Hc : Forall (fun l => exists c, l = counter c "c")
                 (elems (listenersAt countingDispatcher (name testEvent))))
    by (repeat constructor; exists 1; reflexivity).
  assert (Hin : inInt (default 0%Z (vars testMem !! "c")))
    by (unfold inInt; split; [discriminate | reflexivity]).
  split; [reflexivity|]. split; [reflexivity|]. split; [exact Hall|].
  split; [exact Hc|]. split; [exact Hin|].
  destruct (Dispatch_calls_each_function_once countingDispatcher testMem []
              1%positive testEvent "c" eq_refl eq_refl Hall)
    as (w & Hd & Hsame & Hcalls & _ & Hcount).
  exists w. split; [exact Hd|]. split; [exact Hsame|].
  split; [rewrite Hcalls; reflexivity|].
  destruct (Hcount Hc Hin) as [_ Hsum]. rewrite Hsum; reflexivity.
Defined.

(* --------------------------------------------------------------------- *)
(** ** The event, beyond the round trip                                   *)
(* --------------------------------------------------------------------- *)

(** X13. [SetParam] and [RemoveParam] on a key leave the rest as it is: the
    value of every other key, the name and the flag of the event, the
    other events and the captured variables. A second [SetParam] on the
    key replaces the value of the first. *)
Theorem params_of_other_keys_stay (m : Mem) (e e' : loc) (ev : ParamsEvent)
    (k k' : string) (v v' : iface) :
  events m !! e = Some ev -> k' <> k -> e' <> e ->
  exists m1 m2 m3 r,
    SetParam e k v m = Ok (e, m1) /\
    RemoveParam e k m = Ok (e, m2) /\
    GetParam e k' m = Ok (r, m) /\
    GetParam e k' m1 = Ok (r, m1) /\
    GetParam e k' m2 = Ok (r, m2) /\
    Name e m1 = Ok (name ev, m1) /\ Name e m2 = Ok (name ev, m2) /\
    IsPropagationStopped e m1 = Ok (isPropagationStopped ev, m1) /\
    IsPropagationStopped e m2 = Ok (isPropagationStopped ev, m2) /\
    events m1 !! e' = events m !! e' /\ events m2 !! e' = events m !! e' /\
    vars m1 = vars m /\ vars m2 = vars m /\
    SetParam e k v' m1 = Ok (e, m3) /\
    GetParam e k m3 = Ok ((v', true), m3) /\
    SetParam e k v' m = Ok (e, m3).
Proof.
  intros Hev Hk He.
  set (ev1 := mkParamsEvent (name ev) (isPropagationStopped ev) (<[k := v]> (params ev))).
  set (m1 := mkMem (<[e := ev1]> (events m)) (vars m)).
  assert (Hev1 : events m1 !! e = Some ev1) by apply lookup_insert_eq.
  destruct (RemoveParam e k m) as [[p m2]| |] eqn:Hrm;
    rewrite (RemoveParam_allocated _ _ _ Hev) in Hrm; [|discriminate|discriminate].
  injection Hrm as <- Hm2.
  assert (Hev2 : exists ev2, events m2 !! e = Some ev2 /\ name ev2 = name ev /\
                   isPropagationStopped ev2 = isPropagationStopped ev /\
                   params ev2 !! k' = params ev !! k').
  { subst m2. destruct (params ev !! k).
    - eexists. split; [apply lookup_insert_eq|]. cbn.
      split; [reflexivity|]. split; [reflexivity|].
      apply lookup_delete_ne. congruence.
    - exists ev. auto. }
  destruct Hev2 as (ev2 & Hev2 & Hn2 & Hs2 & Hp2).
  exists m1, m2. eexists. eexists.
  split; [apply (SetParam_allocated _ _ _ Hev)|].
  split; [reflexivity|].
  split; [apply (GetParam_allocated _ _ _ Hev)|].
  split.
  { rewrite (GetParam_allocated _ _ _ Hev1). cbn [params ev1].
    rewrite lookup_insert_ne by congruence. reflexivity. }
  split.
  { rewrite (GetParam_allocated _ _ _ Hev2), Hp2. reflexivity. }
  split; [apply (Name_allocated _ _ _ Hev1)|].
  split; [rewrite (Name_allocated _ _ _ Hev2); now rewrite Hn2|].
  split; [apply (IsPropagationStopped_allocated _ _ _ Hev1)|].
  split; [rewrite (IsPropagationStopped_allocated _ _ _ Hev2); now rewrite Hs2|].
  split; [cbn; apply lookup_insert_ne; congruence|].
  split.
  { subst m2. destruct (params ev !! k); [|reflexivity].
    cbn. apply lookup_insert_ne. congruence. }
  split; [reflexivity|].
  split; [subst m2; destruct (params ev !! k); reflexivity|].
  split; [apply (SetParam_allocated _ _ _ Hev1)|].
  split.
  { erewrite GetParam_allocated by (cbn; apply lookup_insert_eq).
    cbn. now rewrite lookup_insert_eq. }
  rewrite (SetParam_allocated _ _ _ Hev). cbn.
  now rewrite !insert_insert_eq.
Qed.

Lemma params_of_other_keys_stay_witness :
  events testMem !! 1%positive = Some testEvent /\ "b" <> "a" /\
  2%positive <> 1%positive /\
  exists m1 m2 m3 r,
    SetParam 1%positive "a" (IInt 1) testMem = Ok (1%positive, m1) /\
    RemoveParam 1%positive "a" testMem = Ok (1%positive, m2) /\
    GetParam 1%positive "b" testMem = Ok (r, testMem) /\
    GetParam 1%positive "b" m1 = Ok (r, m1) /\
    GetParam 1%positive "b" m2 = Ok (r, m2) /\
    Name 1%positive m1 = Ok (name testEvent, m1) /\
    Name 1%positive m2 = Ok (name testEvent, m2) /\
    IsPropagationStopped 1%positive m1 = Ok (isPropagationStopped testEvent, m1) /\
    IsPropagationStopped 1%positive m2 = Ok (isPropagationStopped testEvent, m2) /\
    events m1 !! 2%positive = events testMem !! 2%positive /\
    events m2 !! 2%positive = events testMem !! 2%positive /\
    vars m1 = vars testMem /\ vars m2 = vars testMem /\
    SetParam 1%positive "a" (IString "x") m1 = Ok (1%positive, m3) /\
    GetParam 1%positive "a" m3 = Ok ((IString "x", true), m3) /\
    SetParam 1%positive "a" (IString "x") testMem = Ok (1%positive, m3).
Proof.
  split; [reflexivity|]. split; [discriminate|]. split; [discriminate|].
  apply (params_of_other_keys_stay testMem 1%positive 2%positive testEvent
           "a" "b" (IInt 1) (IString "x")); [reflexivity|discriminate|discriminate].
Defined.

(** X14. [NewParamsEvent n] returns a pointer that pointed to no event, to an
    event named [n] that is not stopped and has no parameter; the events
    there were are as they were; and the next [NewParamsEvent] returns
    another pointer. *)
Theorem NewParamsEvent_allocates (m : Mem) (n n' k : string) :
  exists p m' p' m'',
    NewParamsEvent n m = Ok (p, m') /\
    events m !! p = None /\
    events m' !! p = Some (mkParamsEvent n false ∅) /\
    (forall e, e <> p -> events m' !! e = events m !! e) /\
    vars m' = vars m /\
    HasParam p k m' = Ok (false, m') /\
    GetParam p k m' = Ok ((IString "", false), m') /\
    NewParamsEvent n' m' = Ok (p', m'') /\
    p' <> p /\
    events m'' !! p = Some (mkParamsEvent n false ∅).
Proof.
  set (p := fresh (dom (events m))).
  set (m' := mkMem (<[p := mkParamsEvent n false ∅]> (events m)) (vars m)).
  assert (Hp : events m !! p = None) by apply not_elem_of_dom, is_fresh.
  assert (Hev : events m' !! p = Some (mkParamsEvent n false ∅))
    by apply lookup_insert_eq.
  assert (Hne : fresh (dom (events m')) <> p).
  { intros Heq. pose proof (is_fresh (dom (events m'))) as Hf.
    apply not_elem_of_dom in Hf. rewrite Heq, Hev in Hf. discriminate. }
  exists p, m'. eexists _, _.
  split; [reflexivity|]. split; [exact Hp|]. split; [exact Hev|].
  split; [intros e He; cbn; apply lookup_insert_ne; congruence|].
  split; [reflexivity|].
  split; [rewrite (HasParam_allocated _ _ _ Hev); reflexivity|].
  split; [rewrite (GetParam_allocated _ _ _ Hev); reflexivity|].
  split; [reflexivity|]. split; [exact Hne|].
  cbn. rewrite lookup_insert_ne by exact Hne. exact Hev.
Qed.

(* --------------------------------------------------------------------- *)
(** ** The registry, in any state the program can reach                   *)
(* --------------------------------------------------------------------- *)

(** X15. Whatever the program has done, every key of the registry has a
    dispatcher that exists, and two keys have the same dispatcher only
    when they are the same key. *)
Theorem registry_keys_have_their_own_dispatcher (r : Registry)
    (ds : gmap string loc) (k1 k2 : string) (p1 p2 : loc) :
  reachable r -> dispatchers r = Some ds ->
  ds !! k1 = Some p1 -> ds !! k2 = Some p2 ->
  is_Some (heap r !! p1) /\ (p1 = p2 <-> k1 = k2).
Proof.
  intros Hr Hds H1 H2.
  destruct (reachable_ok r Hr ds Hds) as [Hal Hinj].
  split; [eapply Hal, H1|]. split.
  - intros ->. eapply Hinj; eassumption.
  - intros ->. congruence.
Qed.

Lemma registry_keys_have_their_own_dispatcher_witness :
  let r := snd (lookedUp "foo" (snd (lookedUp DefaultDispatcherKey initRegistry))) in
  reachable r /\
  dispatchers r = Some {[ DefaultDispatcherKey := 1%positive; "foo" := 2%positive ]} /\
  is_Some (heap r !! 1%positive) /\ (1%positive = 2%positive <-> DefaultDispatcherKey = "foo").
Proof.
  intros r.
  assert (Hr : reachable r).
  { eapply steps_snoc; [eapply steps_snoc; [apply steps_refl|]|].
    - eapply (step_get INil). rewrite GetDispatcher_nil. apply f_equal, surjective_pairing.
    - eapply (step_get (IString "foo")). rewrite GetDispatcher_string.
      apply f_equal, surjective_pairing. }
  assert (Hds : dispatchers r
                = Some {[ DefaultDispatcherKey := 1%positive; "foo" := 2%positive ]}).
  { vm_compute. reflexivity. }
  split; [exact Hr|]. split; [exact Hds|].
  apply (registry_keys_have_their_own_dispatcher r _ DefaultDispatcherKey "foo"
           1%positive 2%positive Hr Hds); vm_compute; reflexivity.
Defined.

(* --------------------------------------------------------------------- *)
(** ** The earlier dispatcher                                             *)
(* --------------------------------------------------------------------- *)

Lemma RUnlock_unlocked (w : World) :
  unlocked (disp w) -> onDisp RUnlock w = Fatal.
Proof.
  destruct w as [[mu ls] m cs]. unfold unlocked. cbn. now intros ->.
Qed.

Lemma old_call_unlocked (e : loc) (l : Listener) :
  forall w : World, unlocked (disp w) -> fatalOrUnlocked (old_call l e w).
Proof.
  induction l as [c body|n l IH]; intros w H; cbn [old_call].
  - exact H.
  - unfold bind at 1. specialize (IH w H).
    destruct (old_call l e w) as [[[] w']| |]; [|contradiction|exact I].
    unfold bind at 1. now rewrite RUnlock_unlocked.
Qed.

Lemma old_call_reading (e : loc) (l : Listener) :
  forall w : World,
    RWMutex (disp w) = readingMutex ->
    match old_call l e w with
    | Fatal => True
    | Ok (_, w') => if isFunc l then disp w' = disp w else unlocked (disp w')
    | Blocked => False
    end.
Proof.
  induction l as [c body|n l IH]; intros w H; cbn [old_call isFunc].
  - reflexivity.
  - unfold bind at 1. specialize (IH w H).
    destruct (old_call l e w) as [[[] w']| |]; [|contradiction|exact I].
    destruct l as [c body|n' l']; cbn [isFunc] in IH.
    + destruct w' as [[mu' ls'] m' cs']. cbn [disp] in IH. rewrite IH.
      destruct w as [[mu ls] m cs]. cbn [disp RWMutex] in H. subst mu.
      unfold bind at 1. cbn.
      unfold onDisp. cbn [disp].
      rewrite Off_unlocked by reflexivity. reflexivity.
    + unfold bind at 1. now rewrite RUnlock_unlocked.
Qed.

Lemma doDispatch_loop_unlocked (nm : string) (e : loc) (k : nat) :
  forall (i : nat) (w : World),
    unlocked (disp w) -> fatalOrUnlocked (doDispatch_loop nm e k i w).
Proof.
  induction k as [|k IH]; intros i w H; cbn [doDispatch_loop].
  - exact H.
  - unfold bind at 1, get.
    destruct (backing (listenersAt (disp w) nm) !! i) as [l|]; [|exact I].
    unfold bind at 1, record. unfold bind at 1.
    pose proof (old_call_unlocked e l
                  (mkWorld (disp w) (mem w) (calls w ++ [(l, e)])) H) as Hc.
    destruct (old_call l e _) as [[[] w']| |]; [|contradiction|exact I].
    apply IH, Hc.
Qed.

Lemma doDispatch_loop_reading (nm : string) (e : loc) (n : string) (l : Listener)
    (j : nat) :
  forall (k i : nat) (w : World),
    RWMutex (disp w) = readingMutex ->
    (forall j', j' < j ->
       exists x, backing (listenersAt (disp w) nm) !! (i + j') = Some x /\
                 isFunc x = true) ->
    backing (listenersAt (disp w) nm) !! (i + j) = Some (OnceFunc n l) ->
    j < k ->
    fatalOrUnlocked (doDispatch_loop nm e k i w).
Proof.
  induction j as [|j IH]; intros k i w H Hpre Hat Hk;
    (destruct k as [|k]; [lia|]); cbn [doDispatch_loop]; unfold bind at 1, get.
  - rewrite Nat.add_0_r in Hat. rewrite Hat.
    unfold bind at 1, record. unfold bind at 1.
    pose proof (old_call_reading e (OnceFunc n l)
                  (mkWorld (disp w) (mem w) (calls w ++ [(OnceFunc n l, e)])) H) as Hc.
    destruct (old_call (OnceFunc n l) e _) as [[[] w']| |]; [|contradiction|exact I].
    cbn [isFunc] in Hc. now apply doDispatch_loop_unlocked.
  - destruct (Hpre 0) as (x & Hx & Hf); [lia|].
    rewrite Nat.add_0_r in Hx. rewrite Hx.
    unfold bind at 1, record. unfold bind at 1.
    pose proof (old_call_reading e x
                  (mkWorld (disp w) (mem w) (calls w ++ [(x, e)])) H) as Hc.
    destruct (old_call x e _) as [[[] w']| |]; [|contradiction|exact I].
    rewrite Hf in Hc. cbn [disp] in Hc.
    apply IH.
    + now rewrite Hc.
    + intros j' Hj'. rewrite Hc.
      destruct (Hpre (S j')) as (y & Hy & Hfy); [lia|].
      exists y. split; [|exact Hfy]. now rewrite Nat.add_succ_comm.
    + rewrite Hc. now rewrite Nat.add_succ_comm.
    + lia.
Qed.

(** X16. In the earlier dispatcher a [Dispatch] that reaches a once-wrapper
    does not return: the wrapper releases the read lock that [Dispatch]
    holds and does not take it again, so that the next release, by a later
    wrapper or by the deferred [RUnlock] of [Dispatch], is the fatal error
    of unlocking a mutex that is not locked. *)
Theorem old_Dispatch_with_a_once_listener_is_fatal (d : EventDispatcher) (m : Mem)
    (cs : list (Listener * loc)) (e : loc) (ev : ParamsEvent) (n : string)
    (l : Listener) (pre post : list Listener) :
  unlocked d -> events m !! e = Some ev ->
  elems (listenersAt d (name ev)) = pre ++ OnceFunc n l :: post ->
  Forall (fun x => isFunc x = true) pre ->
  old_Dispatch e (mkWorld d m cs) = Fatal.
Proof.
  intros H Hev He Hpre. rewrite (dispatcher_unlocked d H).
  unfold old_Dispatch, bind at 1. cbn.
  unfold doDispatch, bind at 1. unfold onMem. cbn.
  rewrite (Name_allocated _ _ _ Hev).
  unfold bind at 1, get. unfold bind at 1.
  set (w := mkWorld _ m cs).
  assert (Hb : backing (listenersAt (disp w) (name ev))
               = pre ++ OnceFunc n l :: (post ++ spare (listenersAt d (name ev)))).
  { unfold w, listenersAt in *. cbn. unfold backing. rewrite He.
    now rewrite <- app_assoc. }
  pose proof (doDispatch_loop_reading (name ev) e n l (length pre)
                (length (elems (listenersAt (disp w) (name ev)))) 0 w) as Hloop.
  destruct (doDispatch_loop _ _ _ _ _) as [[[] w']| |]; [| |reflexivity].
  - cbn. unfold bind. rewrite RUnlock_unlocked; [reflexivity|].
    apply Hloop.
    + reflexivity.
    + intros j' Hj'. rewrite Hb. cbn [Nat.add].
      destruct (pre !! j') as [x|] eqn:Hx.
      2:{ apply lookup_ge_None in Hx. lia. }
      exists x. split; [now rewrite lookup_app_l by lia|].
      rewrite Forall_forall in Hpre. eapply Hpre, list_elem_of_lookup_2, Hx.
    + rewrite Hb. cbn [Nat.add]. now apply list_lookup_middle.
    + unfold w, listenersAt in *. cbn. rewrite He, length_app. cbn. lia.
  - exfalso. apply Hloop.
    + reflexivity.
    + intros j' Hj'. rewrite Hb. cbn [Nat.add].
      destruct (pre !! j') as [x|] eqn:Hx.
      2:{ apply lookup_ge_None in Hx. lia. }
      exists x. split; [now rewrite lookup_app_l by lia|].
      rewrite Forall_forall in Hpre. eapply Hpre, list_elem_of_lookup_2, Hx.
    + rewrite Hb. cbn [Nat.add]. now apply list_lookup_middle.
    + unfold w, listenersAt in *. cbn. rewrite He, length_app. cbn. lia.
Qed.

Lemma old_Dispatch_with_a_once_listener_is_fatal_witness :
  exists d,
    old_Once TestEventName (counter 1 "c") newEventDispatcher = Ok (tt, d) /\
    unlocked d /\
    events testMem !! 1%positive = Some testEvent /\
    old_Dispatch 1%positive (mkWorld d testMem []) = Fatal.
Proof.
  eexists. split; [reflexivity|]. split; [reflexivity|]. split; [reflexivity|].
  apply (old_Dispatch_with_a_once_listener_is_fatal _ testMem [] 1%positive testEvent
           TestEventName (counter 1 "c") [] []);
    [reflexivity|reflexivity|reflexivity|constructor].
Defined.

Lemma bind_ret_unit {S : Type} (f : M S unit) (s : S) : (f ;;; ret tt) s = f s.
Proof. unfold bind, ret. destruct (f s) as [[[] s']| |]; reflexivity. Qed.

(** X17. The two forms of the dispatcher register alike under one event name:
    for a name that is not empty and has no space, the earlier [On] and
    [Once] do what the current ones do, in every state of the dispatcher.
    For any other string they differ: the earlier [On] registers under the
    string as it is. *)
Theorem old_On_agrees_on_names (d : EventDispatcher) (n s : string) (l : Listener) :
  isName n -> unlocked d ->
  old_On n l d = On n l d /\
  old_Once n l d = Once n l d /\
  exists d', old_On s l d = Ok (tt, d') /\
             elems (listenersAt d' s) = elems (listenersAt d s) ++ [l].
Proof.
  intros Hname H. split; [|split].
  - unfold On. rewrite Hname. cbn [for_each]. now rewrite bind_ret_unit.
  - unfold Once, old_Once. rewrite Hname. cbn [for_each].
    now rewrite bind_ret_unit.
  - eexists. split; [apply (on_unlocked s l d H)|].
    unfold listenersAt. cbn [listeners].
    now rewrite registered_elems, decide_True by reflexivity.
Qed.

Lemma old_On_agrees_on_names_witness :
  isName TestEventName /\ unlocked newEventDispatcher /\
  old_On TestEventName (counter 1 "c") newEventDispatcher
  = On TestEventName (counter 1 "c") newEventDispatcher /\
  old_Once TestEventName (counter 1 "c") newEventDispatcher
  = Once TestEventName (counter 1 "c") newEventDispatcher /\
  exists d', old_On "a b" (counter 1 "c") newEventDispatcher = Ok (tt, d') /\
             elems (listenersAt d' "a b")
             = elems (listenersAt newEventDispatcher "a b") ++ [counter 1 "c"].
Proof.
  split; [reflexivity|]. split; [reflexivity|].
  apply (old_On_agrees_on_names newEventDispatcher TestEventName "a b" (counter 1 "c"));
    reflexivity.
Defined.
